(** * Gita: audio-to-block timestamp synchronisation

    A shallow embedding of the frontend store [src/frontend/src/store/appStore.ts],
    of the block-creation handler of [MainEditor.tsx] and of the
    [audio_timestamps] table of [migrations/001_initial.sql].  The Tauri
    backend commands ([create_block], [start_recording], [stop_recording]) are
    not part of the sources; they are modelled from the spec and marked so.

    JavaScript runs the store on a single thread: an [async] action runs
    synchronously up to its first [await invoke(...)] and its continuation runs
    later, when the backend answers.  The world below therefore has one step
    for the synchronous part of an action (which issues an invoke and leaves it
    pending) and one step that resolves any pending invoke. *)

From Stdlib Require Import ZArith Lia Ascii Sorted.
From stdpp Require Import base list sets strings pretty.

Open Scope Z_scope.

(* ------------------------------------------------------------------ *)
(** ** Data model (appStore.ts, lines 4-66) *)

Record AudioRecording := mkAudioRecording {
  ar_id : string;
  ar_page_id : string;
  ar_file_path : string;
  ar_duration_seconds : option Z;
  ar_recorded_at : string
}.

Record AudioTimestamp := mkAudioTimestamp {
  ts_id : Z;
  ts_block_id : string;
  ts_recording_id : string;
  ts_timestamp_seconds : Z;
  ts_recording : option AudioRecording
}.

Record Block := mkBlock {
  b_id : string;
  b_content : option string;
  b_parent_id : option string;
  b_order : Z;
  b_is_page : bool;
  b_page_title : option string;
  b_created_at : string;
  b_updated_at : string;
  b_audio_timestamp : option AudioTimestamp
}.

Record AudioDevice := mkAudioDevice {
  dev_name : string;
  dev_is_default : bool;
  dev_device_type : string
}.

Record AudioState := mkAudioState {
  isRecording : bool;
  recordingId : option string;
  pageId : option string;
  startTime : option Z;
  devices : list AudioDevice
}.

Record CreateBlockRequest := mkCreateBlockRequest {
  req_content : option string;
  req_parent_id : option string;
  req_order : Z;
  req_is_page : bool;
  req_page_title : option string
}.

Record AudioMeta := mkAudioMeta {
  recording_id : string;
  timestamp : Z
}.

Record AppState := mkAppState {
  blocks : list Block;
  currentPage : option Block;
  isLoading : bool;
  error : option string;
  audioState : AudioState
}.

(** [set] of zustand merges the given fields into the state. *)
Definition set_blocks (bs : list Block) (s : AppState) : AppState :=
  mkAppState bs (currentPage s) (isLoading s) (error s) (audioState s).

Definition set_error (e : option string) (s : AppState) : AppState :=
  mkAppState (blocks s) (currentPage s) (isLoading s) e (audioState s).

Definition set_audioState (a : AudioState) (s : AppState) : AppState :=
  mkAppState (blocks s) (currentPage s) (isLoading s) (error s) a.

(** JavaScript truthiness of an optional string and of an optional number
    ([undefined], [""] and [0] are falsy). *)
Definition truthy_str (o : option string) : bool :=
  match o with Some s => negb (String.eqb s "") | None => false end.

Definition truthy_num (o : option Z) : bool :=
  match o with Some n => negb (Z.eqb n 0) | None => false end.

(** Outcome of a promise returned by a store action. *)
Inductive Result (A : Type) :=
| Ok (a : A)
| Err (e : string).
Arguments Ok {A} a.
Arguments Err {A} e.

(* ------------------------------------------------------------------ *)
(** ** Store actions (appStore.ts) *)

(** [createBlock] (lines 183-208): [tauri] is [window.__TAURI__], [res] the
    answer of [invoke('create_block', ...)], [s] the store when the answer
    arrives ([set(state => ...)] reads the state of that moment).  Returns the
    new store and the settlement of the returned promise. *)
Definition createBlock (tauri : bool) (res : Result Block) (s : AppState)
  : AppState * Result Block :=
  if tauri then
    match res with
    | Ok newBlock => (set_blocks (blocks s ++ [newBlock]) s, Ok newBlock)
    | Err e => (set_error (Some e) s, Err e)
    end
  else
    (set_error (Some "Tauri API not available") s,
     Err "Tauri API not available, cannot create block.").

(** Continuation of [startRecording] (lines 263-275) after
    [invoke('start_recording')]; [now] is [Date.now()] at that moment. *)
Definition startRecording_k (pid : string) (now : Z) (res : Result string)
  (s : AppState) : AppState * Result unit :=
  match res with
  | Ok rid =>
      (set_audioState
         (mkAudioState true (Some rid) (Some pid) (Some now) (devices (audioState s))) s,
       Ok tt)
  | Err e => (set_error (Some e) s, Err e)
  end.

(** [startRecording] without Tauri (lines 277-287): does not throw. *)
Definition startRecording_notauri (s : AppState) : AppState :=
  let a := audioState s in
  set_error (Some "Tauri API not available")
    (set_audioState
       (mkAudioState false (recordingId a) (pageId a) (startTime a) (devices a)) s).

Definition reset_audio (a : AudioState) : AudioState :=
  mkAudioState false None None None (devices a).

(** Continuation of [stopRecording] (lines 299-312). *)
Definition stopRecording_k (res : Result unit) (s : AppState) : AppState * Result unit :=
  match res with
  | Ok _ => (set_audioState (reset_audio (audioState s)) s, Ok tt)
  | Err e => (set_error (Some e) s, Err e)
  end.

(** [stopRecording] without Tauri (lines 313-326). *)
Definition stopRecording_notauri (s : AppState) : AppState :=
  set_error (Some "Tauri API not available")
    (set_audioState (reset_audio (audioState s)) s).

(* ------------------------------------------------------------------ *)
(** ** Block-creation handler (MainEditor.tsx, lines 20-50) *)

(** [Math.floor((Date.now() - audioState.startTime) / 1000)]; [Z.div] rounds
    towards minus infinity like [Math.floor]. *)
Definition offset_of (now start : Z) : Z := (now - start) / 1000.

(** Lines 27-34: the audio metadata computed when recording. *)
Definition audioMeta_of (a : AudioState) (now : Z) : option AudioMeta :=
  if isRecording a && truthy_str (recordingId a) && truthy_num (startTime a) then
    match recordingId a, startTime a with
    | Some rid, Some st => Some (mkAudioMeta rid (offset_of now st))
    | _, _ => None
    end
  else None.

(** [String.prototype.trim] removes white space; the ASCII white space
    characters are modelled. *)
Definition is_ws (c : ascii) : bool :=
  let n := Ascii.nat_of_ascii c in
  Nat.eqb n 32 || Nat.eqb n 9 || Nat.eqb n 10 || Nat.eqb n 11 || Nat.eqb n 12
  || Nat.eqb n 13.

Fixpoint trim_nonempty (s : string) : bool :=
  match s with
  | EmptyString => false
  | String c s' => negb (is_ws c) || trim_nonempty s'
  end.

(** [sortedBlocks.length]: the non-page blocks of the store. *)
Definition sorted_blocks_length (s : AppState) : Z :=
  Z.of_nat (length (List.filter (fun b => negb (b_is_page b)) (blocks s))).

(** Lines 37-42: the request passed to [createBlock]. *)
Definition new_block_request (content : string) (page : Block) (s : AppState)
  : CreateBlockRequest :=
  mkCreateBlockRequest (Some content) (Some (b_id page)) (sorted_blocks_length s)
    false None.

(* ------------------------------------------------------------------ *)
(** ** Playback (appStore.ts, lines 359-368) *)

Inductive PlayEffect :=
| NewAudio (url : string)
| SetCurrentTime (t : Z)
| Play
| ConsoleError (msg : string).

(** Completion of a synchronous JavaScript call. *)
Inductive Completion :=
| Normal
| Thrown (e : string).

(** [readable path] says whether the file can be loaded: when it cannot,
    [audio.play()] rejects and the [.catch] handler logs. *)
Definition playAudioFromTimestamp (readable : string -> bool) (t : AudioTimestamp)
  : list PlayEffect * Completion :=
  match ts_recording t with
  | None => ([], Normal)
  | Some r =>
      let url := "file://" +:+ ar_file_path r in
      ([NewAudio url; SetCurrentTime (ts_timestamp_seconds t); Play]
       ++ (if readable (ar_file_path r) then [] else [ConsoleError "Failed to play audio:"]),
       Normal)
  end.

(* ------------------------------------------------------------------ *)
(** ** Observable trace *)

Inductive Action := ACreateBlock | AStartRecording | AStopRecording.

(** A pending [invoke], tagged with the number of the request that issued it. *)
Inductive Cmd :=
| CmdCreateBlock (k : nat) (q : CreateBlockRequest) (m : option AudioMeta)
| CmdStartRecording (k : nat) (pid : string)
| CmdStopRecording (k : nat) (rid : string).

Definition cmd_req (c : Cmd) : nat :=
  match c with
  | CmdCreateBlock k _ _ | CmdStartRecording k _ | CmdStopRecording k _ => k
  end.

Inductive Out :=
| OInvoke (c : Cmd)                          (* invoke issued by the frontend *)
| OCreated (k : nat) (bid : string)          (* block row inserted *)
| OBound (k : nat) (bid rid : string) (t : Z) (* audio_timestamps row inserted *)
| OBindFailed (k : nat) (e : string)         (* binding failure reported *)
| OStarted (k : nat) (rid : string)          (* recording session started *)
| OPersisted (k : nat) (rid : string)        (* recording finalised and persisted *)
| OSettled (a : Action) (res : option string). (* promise settled: None fulfilled *)

Definition settle {A} (a : Action) (r : Result A) : Out :=
  OSettled a (match r with Ok _ => None | Err e => Some e end).

(* ------------------------------------------------------------------ *)
(** ** Database and backend *)

(** The tables of 001_initial.sql, the [gen_random_uuid()] generator and the
    [SERIAL] sequence, and the backend's in-memory recording session (the
    active recording and its monotonic start instant). *)
Record Db := mkDb {
  db_blocks : list Block;
  db_recordings : list AudioRecording;
  db_timestamps : list AudioTimestamp;
  db_serial : Z;
  db_next_uuid : N;
  db_session : option (string * Z)
}.

Definition uuid (n : N) : string := pretty n.

Definition block_exists (d : Db) (id : string) : bool :=
  existsb (fun b => String.eqb (b_id b) id) (db_blocks d).

Definition recording_exists (d : Db) (id : string) : bool :=
  existsb (fun r => String.eqb (ar_id r) id) (db_recordings d).

Definition pair_exists (d : Db) (bid rid : string) : bool :=
  existsb (fun row => String.eqb (ts_block_id row) bid && String.eqb (ts_recording_id row) rid)
    (db_timestamps d).

(** [INSERT INTO audio_timestamps] (lines 40-57): the two foreign keys and
    [UNIQUE (block_id, recording_id)] are checked; [id] comes from the
    sequence. *)
Definition insert_audio_timestamp (d : Db) (bid rid : string) (t : Z)
  : Result (Db * AudioTimestamp) :=
  if negb (block_exists d bid) then Err "violates foreign key constraint fk_block"
  else if negb (recording_exists d rid) then Err "violates foreign key constraint fk_recording"
  else if pair_exists d bid rid then Err "duplicate key value violates unique constraint"
  else
    let row := mkAudioTimestamp (db_serial d) bid rid t None in
    Ok (mkDb (db_blocks d) (db_recordings d) (db_timestamps d ++ [row])
          (db_serial d + 1) (db_next_uuid d) (db_session d), row).

(** [loadBinding(blockId)] of the spec: the binding row of a block. *)
Definition load_binding (d : Db) (bid : string) : option AudioTimestamp :=
  find (fun row => String.eqb (ts_block_id row) bid) (db_timestamps d).

(** [INSERT INTO blocks]: the parent foreign key and the primary key are
    checked; the id comes from [gen_random_uuid()], the dates from [NOW()]. *)
Definition insert_block (d : Db) (now : Z) (q : CreateBlockRequest) : Result (Db * Block) :=
  let parent_ok := match req_parent_id q with
                   | Some p => block_exists d p
                   | None => true
                   end in
  if negb parent_ok then Err "violates foreign key constraint fk_parent"
  else
    let id := uuid (db_next_uuid d) in
    if block_exists d id then Err "duplicate key value violates unique constraint blocks_pkey"
    else
      let b := mkBlock id (req_content q) (req_parent_id q) (req_order q) (req_is_page q)
                 (req_page_title q) (pretty now) (pretty now) None in
      Ok (mkDb (db_blocks d ++ [b]) (db_recordings d) (db_timestamps d) (db_serial d)
            (N.succ (db_next_uuid d)) (db_session d), b).

(** Modelled from the spec: the backend command [create_block] (not in the
    sources).  Block Store [createBlock] (section 6), then, when the frontend
    passed [audioMeta], [saveBinding] of the block with that recording and
    offset; a failed binding is reported and does not fail the creation
    (section 7). *)
Definition backend_create_block (d : Db) (now : Z) (k : nat) (q : CreateBlockRequest)
  (m : option AudioMeta) : Db * list Out * Result Block :=
  match insert_block d now q with
  | Err e => (d, [], Err e)
  | Ok (d1, b) =>
      match m with
      | None => (d1, [OCreated k (b_id b)], Ok b)
      | Some meta =>
          match insert_audio_timestamp d1 (b_id b) (recording_id meta) (timestamp meta) with
          | Ok (d2, row) =>
              (d2, [OCreated k (b_id b); OBound k (b_id b) (recording_id meta) (timestamp meta)],
               Ok (mkBlock (b_id b) (b_content b) (b_parent_id b) (b_order b) (b_is_page b)
                     (b_page_title b) (b_created_at b) (b_updated_at b) (Some row)))
          | Err e => (d1, [OCreated k (b_id b); OBindFailed k e], Ok b)
          end
      end
  end.

(** Modelled from the spec: the backend command [start_recording] (not in the
    sources).  [start] of section 4.1 fails with [AlreadyRecording] when a
    session is active; otherwise it records the monotonic start instant and
    returns the new recording's identifier.  The recording row is written at
    once, since [audio_timestamps.recording_id] references it. *)
Definition backend_start_recording (d : Db) (now mono : Z) (k : nat) (pid : string)
  : Db * list Out * Result string :=
  match db_session d with
  | Some _ => (d, [], Err "AlreadyRecording")
  | None =>
      if negb (block_exists d pid) then (d, [], Err "violates foreign key constraint fk_page")
      else
        let rid := uuid (db_next_uuid d) in
        let r := mkAudioRecording rid pid ("recordings/" +:+ rid +:+ ".wav") None (pretty now) in
        (mkDb (db_blocks d) (db_recordings d ++ [r]) (db_timestamps d) (db_serial d)
           (N.succ (db_next_uuid d)) (Some (rid, mono)),
         [OStarted k rid], Ok rid)
  end.

Definition finalize (rid : string) (dur : Z) (r : AudioRecording) : AudioRecording :=
  if String.eqb (ar_id r) rid then
    mkAudioRecording (ar_id r) (ar_page_id r) (ar_file_path r) (Some dur) (ar_recorded_at r)
  else r.

(** Modelled from the spec: the backend command [stop_recording] (not in the
    sources).  [stop] of section 4.1 fails with [NotRecording] when the
    session is not the active one; otherwise it sets the duration to the
    monotonic elapsed time, persists the recording and ends the session. *)
Definition backend_stop_recording (d : Db) (mono : Z) (k : nat) (rid : string)
  : Db * list Out * Result unit :=
  match db_session d with
  | Some (r, st) =>
      if String.eqb r rid then
        (mkDb (db_blocks d) (map (finalize rid ((mono - st) / 1000)) (db_recordings d))
           (db_timestamps d) (db_serial d) (db_next_uuid d) None,
         [OPersisted k rid], Ok tt)
      else (d, [], Err "NotRecording")
  | None => (d, [], Err "NotRecording")
  end.

(* ------------------------------------------------------------------ *)
(** ** The running application *)

(** [wall] is [Date.now()] (the wall clock, which the user or the system may
    set); [mono] is a monotonic clock, which only elapsing time moves. *)
Record World := mkWorld {
  tauri : bool;
  wall : Z;
  mono : Z;
  app : AppState;
  pending : list Cmd;
  next_req : nat;
  db : Db;
  out : list Out
}.

Inductive Event :=
| EvTick (d : N)                  (* d milliseconds elapse *)
| EvSetWall (t : Z)               (* the wall clock is set to t *)
| EvEnter (content : string)      (* Enter in the new-block textarea *)
| EvStartRecording (pid : string) (* store action startRecording(pid) *)
| EvStopRecording                 (* store action stopRecording() *)
| EvResolve (n : nat).            (* the n-th pending invoke answers *)

Definition issue (c : Cmd) (w : World) : World :=
  mkWorld (tauri w) (wall w) (mono w) (app w) (pending w ++ [c]) (S (next_req w))
    (db w) (out w ++ [OInvoke c]).

Definition update (s : AppState) (d : Db) (os : list Out) (p : list Cmd) (w : World)
  : World :=
  mkWorld (tauri w) (wall w) (mono w) s p (next_req w) d (out w ++ os).

(** The backend answers the invoke [c] and the continuation of the action
    that awaited it runs. *)
Definition resolve (c : Cmd) (rest : list Cmd) (w : World) : World :=
  match c with
  | CmdCreateBlock k q m =>
      let '(d, os, res) := backend_create_block (db w) (wall w) k q m in
      let '(s, r) := createBlock true res (app w) in
      update s d (os ++ [settle ACreateBlock r]) rest w
  | CmdStartRecording k pid =>
      let '(d, os, res) := backend_start_recording (db w) (wall w) (mono w) k pid in
      let '(s, r) := startRecording_k pid (wall w) res (app w) in
      update s d (os ++ [settle AStartRecording r]) rest w
  | CmdStopRecording k rid =>
      let '(d, os, res) := backend_stop_recording (db w) (mono w) k rid in
      let '(s, r) := stopRecording_k res (app w) in
      update s d (os ++ [settle AStopRecording r]) rest w
  end.

Definition step (w : World) (e : Event) : World :=
  match e with
  | EvTick d =>
      mkWorld (tauri w) (wall w + Z.of_N d) (mono w + Z.of_N d) (app w) (pending w)
        (next_req w) (db w) (out w)
  | EvSetWall t =>
      mkWorld (tauri w) t (mono w) (app w) (pending w) (next_req w) (db w) (out w)
  | EvEnter content =>
      (* handleCreateBlock *)
      if trim_nonempty content then
        match currentPage (app w) with
        | None => w
        | Some page =>
            let audioMeta := audioMeta_of (audioState (app w)) (wall w) in
            let q := new_block_request content page (app w) in
            if tauri w then issue (CmdCreateBlock (next_req w) q audioMeta) w
            else
              (* createBlock without Tauri; the invoke answer is not used *)
              let '(s, r) := createBlock false (Err "") (app w) in
              update s (db w) [settle ACreateBlock r] (pending w) w
        end
      else w
  | EvStartRecording pid =>
      if tauri w then issue (CmdStartRecording (next_req w) pid) w
      else update (startRecording_notauri (app w)) (db w)
             [OSettled AStartRecording None] (pending w) w
  | EvStopRecording =>
      let rid := recordingId (audioState (app w)) in
      if truthy_str rid then
        match rid with
        | Some r =>
            if tauri w then issue (CmdStopRecording (next_req w) r) w
            else update (stopRecording_notauri (app w)) (db w)
                   [OSettled AStopRecording None] (pending w) w
        | None => w
        end
      else
        (* if (!audioState.recordingId) return; *)
        update (app w) (db w) [OSettled AStopRecording None] (pending w) w
  | EvResolve n =>
      match pending w !! n with
      | Some c => resolve c (delete n (pending w)) w
      | None => w
      end
  end.

Fixpoint run (w : World) (es : list Event) : World :=
  match es with
  | [] => w
  | e :: es' => run (step w e) es'
  end.

(** The application after [loadDailyNote]: one page, no recording. *)
Definition daily_page : Block :=
  mkBlock "daily" None None 0 true (Some "Daily Notes") "2026-01-01" "2026-01-01" None.

Definition init (tf : bool) : World :=
  mkWorld tf 1700000000000 0
    (mkAppState [daily_page] (Some daily_page) false None
       (mkAudioState false None None None []))
    [] 0 (mkDb [daily_page] [] [] 1 0 None) [].

(** The audio metadata of the create-block invokes of a trace, in order. *)
Fixpoint create_metas (l : list Out) : list AudioMeta :=
  match l with
  | [] => []
  | OInvoke (CmdCreateBlock _ _ (Some m)) :: l' => m :: create_metas l'
  | _ :: l' => create_metas l'
  end.

(** The number of times the recording [rid] was persisted. *)
Definition persist_count (rid : string) (l : list Out) : nat :=
  length (List.filter (fun o => match o with
                           | OPersisted _ r => String.eqb r rid
                           | _ => false
                           end) l).

(** The recordings started in a trace, in order. *)
Fixpoint started_rids (l : list Out) : list string :=
  match l with
  | [] => []
  | OStarted _ r :: l' => r :: started_rids l'
  | _ :: l' => started_rids l'
  end.

(** The request number an output is tagged with. *)
Definition out_req (o : Out) : option nat :=
  match o with
  | OInvoke c => Some (cmd_req c)
  | OCreated k _ | OBound k _ _ _ | OBindFailed k _ | OStarted k _ | OPersisted k _ => Some k
  | OSettled _ _ => None
  end.

(** Whether the wall clock never goes backwards while [es] runs from [w]. *)
Fixpoint wall_never_decreases (w : World) (es : list Event) : bool :=
  match es with
  | [] => true
  | e :: es' =>
      match e with
      | EvSetWall t => Z.leb (wall w) t
      | _ => true
      end && wall_never_decreases (step w e) es'
  end.

(** Each offset is at most every later offset into the same recording. *)
Fixpoint rid_sorted (ms : list AudioMeta) : Prop :=
  match ms with
  | [] => True
  | m :: ms' =>
      Forall (fun m2 => recording_id m2 = recording_id m -> timestamp m <= timestamp m2) ms'
      /\ rid_sorted ms'
  end.

Definition ts_pair (row : AudioTimestamp) : string * string :=
  (ts_block_id row, ts_recording_id row).

(** An identifier already drawn from the uuid generator of [d]. *)
Definition issued (d : Db) (s : string) : Prop :=
  exists n, s = uuid n /\ (n < db_next_uuid d)%N.

(** Invariant of the worlds reachable from [init]. *)
Record Inv (w : World) : Prop := {
  inv_req_pending : forall c, c ∈ pending w -> (cmd_req c < next_req w)%nat;
  inv_req_out : forall o k, o ∈ out w -> out_req o = Some k -> (k < next_req w)%nat;
  inv_created : forall k b, OCreated k b ∈ out w -> issued (db w) b;
  inv_fk_block : forall row, row ∈ db_timestamps (db w) ->
                   block_exists (db w) (ts_block_id row) = true;
  inv_unique : NoDup (map ts_pair (db_timestamps (db w)));
  inv_started : forall r, r ∈ started_rids (out w) -> issued (db w) r;
  inv_started_nodup : NoDup (started_rids (out w));
  inv_current : forall r, recordingId (audioState (app w)) = Some r ->
                  exists l, started_rids (out w) = l ++ [r]
}.

(** [loadBinding(b)] answers a row for recording [r] at offset [t]. *)
Definition stored (d : Db) (b r : string) (t : Z) : Prop :=
  exists row, load_binding d b = Some row /\ ts_recording_id row = r /\
              ts_timestamp_seconds row = t.

(** What the request [k], a create-block invoke carrying [m], leaves in the
    world: its invoke is the only pending command tagged [k], each binding it
    wrote carries [m] and is what [loadBinding] answers, and without [m] its
    block has no binding. *)
Record Track (k : nat) (q : CreateBlockRequest) (m : option AudioMeta) (w : World) : Prop := {
  tr_req : (k < next_req w)%nat;
  tr_pending : forall c, c ∈ pending w -> cmd_req c = k -> c = CmdCreateBlock k q m;
  tr_bound : forall b r t, OBound k b r t ∈ out w ->
               m = Some (mkAudioMeta r t) /\ stored (db w) b r t;
  tr_unbound : m = None -> forall b, OCreated k b ∈ out w -> load_binding (db w) b = None
}.

(** The offsets sent so far are sorted per recording, each names a recording
    that was started, and none exceeds the offset the current recording's
    clock gives now. *)
Record MonoInv (w : World) : Prop := {
  mi_sorted : rid_sorted (create_metas (out w));
  mi_started : forall meta, meta ∈ create_metas (out w) ->
                 recording_id meta ∈ started_rids (out w);
  mi_current : forall r st, recordingId (audioState (app w)) = Some r ->
                 startTime (audioState (app w)) = Some st ->
                 forall meta, meta ∈ create_metas (out w) -> recording_id meta = r ->
                 timestamp meta <= offset_of (wall w) st
}.

Definition scenario1 : list Event :=
  [EvStartRecording "daily"; EvResolve 0; EvTick 2000; EvEnter "B1"; EvTick 3000;
   EvEnter "B2"; EvResolve 0; EvResolve 0; EvTick 2000; EvStopRecording; EvResolve 0].

(** Recording started, then two seconds later nothing yet typed. *)
Definition es_rec : list Event := [EvStartRecording "daily"; EvResolve 0; EvTick 2000].

(** A first session stopped after two seconds, a second one started and
    running for one second. *)
Definition es_restart : list Event :=
  [EvStartRecording "daily"; EvResolve 0; EvTick 2000; EvStopRecording; EvResolve 0;
   EvStartRecording "daily"; EvResolve 0; EvTick 1000].

(** The request [handleCreateBlock] builds for the text "B1" on the daily page. *)
Definition q_B1 : CreateBlockRequest :=
  mkCreateBlockRequest (Some "B1") (Some "daily") 0 false None.

(** A create-block invoke whose audio metadata names a recording the
    database does not hold ("ghost"), waiting for its answer. *)
Definition w_ghost : World :=
  mkWorld true 1700000000000 0 (app (init true))
    [CmdCreateBlock 0 q_B1 (Some (mkAudioMeta "ghost" 3))] 1 (db (init true))
    [OInvoke (CmdCreateBlock 0 q_B1 (Some (mkAudioMeta "ghost" 3)))].

Definition ghost_db : Db :=
  Eval vm_compute in
  match insert_block (db w_ghost) (wall w_ghost) q_B1 with
  | Ok (d1, _) => d1
  | Err _ => db w_ghost
  end.

Definition ghost_block : Block :=
  Eval vm_compute in
  match insert_block (db w_ghost) (wall w_ghost) q_B1 with
  | Ok (_, b) => b
  | Err _ => daily_page
  end.

(** A trace output is present (used on concrete runs). *)
Ltac in_trace := apply list_elem_of_In; vm_compute; repeat (first [left; reflexivity | right]).

(** The binding of B1 in the scenario of the spec, with its recording. *)
Definition missing_file_timestamp : AudioTimestamp :=
  mkAudioTimestamp 1 "1" "0" 2
    (Some (mkAudioRecording "0" "daily" "recordings/0.wav" (Some 7) "1700000000000")).

(** Start, five seconds, Enter. *)
Definition start_then_enter : list Event :=
  [EvStartRecording "daily"; EvResolve 0; EvTick 5000; EvEnter "B1"].

(** The same run with the wall clock set back one hour before the Enter. *)
Definition start_adjust_enter : list Event :=
  [EvStartRecording "daily"; EvResolve 0; EvTick 5000; EvSetWall 1699996405000;
   EvEnter "B1"].

(** Two Enters of one session, the wall clock set back between them. *)
Definition enter_adjust_enter : list Event :=
  [EvStartRecording "daily"; EvResolve 0; EvTick 5000; EvEnter "B1";
   EvSetWall 1700000002000; EvEnter "B2"].

(** Start, stop, and stop again. *)
Definition start_stop_stop : list Event :=
  [EvStartRecording "daily"; EvResolve 0; EvStopRecording; EvResolve 0; EvStopRecording].

(** The event does not set the wall clock back. *)
Definition wall_ok (w : World) (e : Event) : Prop :=
  match e with EvSetWall t => wall w <= t | _ => True end.

(* ------------------------------------------------------------------ *)
(** ** Loading and editing actions (appStore.ts) *)

(** [set({ isLoading: true, error: undefined })], the synchronous start of
    [loadDailyNote] (line 96) and of [loadPage] (line 125). *)
Definition begin_load (s : AppState) : AppState :=
  mkAppState (blocks s) (currentPage s) true None (audioState s).

(** [set({ blocks, currentPage, isLoading: false })]. *)
Definition set_view (bs : list Block) (cp : option Block) (s : AppState) : AppState :=
  mkAppState bs cp false (error s) (audioState s).

(** [set({ error: error as string, isLoading: false })], the [catch] of
    [loadDailyNote] and [loadPage]. *)
Definition load_failed (e : string) (s : AppState) : AppState :=
  mkAppState (blocks s) (currentPage s) false (Some e) (audioState s).

(** [loadDailyNote] and [loadPage] without Tauri run to their end
    synchronously (lines 96 and 114-121, 125 and 173-180). *)
Definition load_notauri (s : AppState) : AppState :=
  set_view [] None (begin_load s).

(** Continuation of [loadDailyNote] (lines 100-113) on the store [s] of the
    moment [invoke('get_daily_note')] answers; [List.find] is
    [blocks.find(block => block.is_page)]. *)
Definition loadDailyNote_k (res : Result (list Block)) (s : AppState) : AppState :=
  match res with
  | Ok bs => set_view bs (List.find b_is_page bs) s
  | Err e => load_failed e s
  end.

(** [loadDailyNote] (lines 95-122) when nothing else touches the store while
    it waits. *)
Definition loadDailyNote (tauri : bool) (res : Result (list Block)) (s : AppState)
  : AppState :=
  if tauri then loadDailyNote_k res (begin_load s) else load_notauri s.

(** What [loadPage] awaits after [invoke('get_page_by_title')] answered. *)
Inductive LoadPageWait :=
| WaitNothing
| WaitChildren (page : Block)             (* invoke('get_block_children') *)
| WaitCreate (q : CreateBlockRequest).    (* get().createBlock(q) *)

(** Lines 141-147: the request of a new page (no audio metadata). *)
Definition page_request (title : string) : CreateBlockRequest :=
  mkCreateBlockRequest None None 0 true (Some title).

(** Lines 129-141 and 166-171: the answer of [get_page_by_title]. *)
Definition loadPage_found_k (title : string) (res : Result (option Block)) (s : AppState)
  : AppState * LoadPageWait :=
  match res with
  | Ok (Some page) => (s, WaitChildren page)
  | Ok None => (s, WaitCreate (page_request title))
  | Err e => (load_failed e s, WaitNothing)
  end.

(** Lines 131-137 and 166-171: the answer of [get_block_children]. *)
Definition loadPage_children_k (page : Block) (res : Result (list Block)) (s : AppState)
  : AppState :=
  match res with
  | Ok children => set_view (page :: children) (Some page) s
  | Err e => load_failed e s
  end.

(** A JavaScript object is truthy. *)
Definition truthy_obj {A} (_ : A) : bool := true.

(** Lines 141-171: [createBlock] (with Tauri, as [loadPage] only calls it in
    its Tauri branch) answers with [res]; its rejection lands in the [catch]
    of [loadPage]. *)
Definition loadPage_created_k (res : Result Block) (s : AppState) : AppState :=
  let '(s1, r) := createBlock true res s in
  match r with
  | Ok newPage =>
      if truthy_obj newPage then set_view [newPage] (Some newPage) s1
      else mkAppState [] None false
             (Some "Failed to create page: Tauri API not available.") (audioState s1)
  | Err e => load_failed e s1
  end.

(** [loadPage] (lines 124-181) when nothing else touches the store while it
    waits: [found], [children] and [created] are the answers of the invokes
    it awaits (only the ones on its path are used).  Returns the store and
    the settlement of its promise. *)
Definition loadPage (tauri : bool) (title : string) (found : Result (option Block))
  (children : Result (list Block)) (created : Result Block) (s : AppState)
  : AppState * Result unit :=
  if tauri then
    let '(s1, wt) := loadPage_found_k title found (begin_load s) in
    match wt with
    | WaitNothing => (s1, Ok tt)
    | WaitChildren page => (loadPage_children_k page children s1, Ok tt)
    | WaitCreate _ => (loadPage_created_k created s1, Ok tt)
    end
  else (load_notauri s, Ok tt).

(** [{ ...block, content, updated_at: new Date().toISOString() }]. *)
Definition with_content (content now : string) (b : Block) : Block :=
  mkBlock (b_id b) (Some content) (b_parent_id b) (b_order b) (b_is_page b)
    (b_page_title b) (b_created_at b) now (b_audio_timestamp b).

(** Continuation of [updateBlockContent] (lines 214-227); [now] is the ISO
    string of the moment of the answer. *)
Definition updateBlockContent_k (blockId content now : string) (res : Result unit)
  (s : AppState) : AppState * Result unit :=
  match res with
  | Ok _ =>
      (set_blocks
         (map (fun b => if String.eqb (b_id b) blockId then with_content content now b else b)
            (blocks s)) s, Ok tt)
  | Err e => (set_error (Some e) s, Err e)
  end.

(** Continuation of [deleteBlock] (lines 239-248). *)
Definition deleteBlock_k (blockId : string) (res : Result unit) (s : AppState)
  : AppState * Result unit :=
  match res with
  | Ok _ =>
      (set_blocks (List.filter (fun b => negb (String.eqb (b_id b) blockId)) (blocks s)) s,
       Ok tt)
  | Err e => (set_error (Some e) s, Err e)
  end.

(** [updateBlockContent] and [deleteBlock] without Tauri (lines 228-232 and
    249-253): the promise fulfils. *)
Definition edit_notauri (s : AppState) : AppState * Result unit :=
  (set_error (Some "Tauri API not available") s, Ok tt).

Definition with_devices (ds : list AudioDevice) (a : AudioState) : AudioState :=
  mkAudioState (isRecording a) (recordingId a) (pageId a) (startTime a) ds.

(** Continuation of [loadAudioDevices] (lines 333-346): the [catch] does not
    rethrow. *)
Definition loadAudioDevices_k (res : Result (list AudioDevice)) (s : AppState)
  : AppState * Result unit :=
  match res with
  | Ok ds => (set_audioState (with_devices ds (audioState s)) s, Ok tt)
  | Err e => (set_error (Some e) s, Ok tt)
  end.

(** [loadAudioDevices] without Tauri (lines 347-356). *)
Definition loadAudioDevices_notauri (s : AppState) : AppState * Result unit :=
  (set_audioState (with_devices [] (audioState s)) s, Ok tt).

(* ------------------------------------------------------------------ *)
(** ** Block list, links and new-block effect (MainEditor.tsx) *)

(** [Array.prototype.sort] with the comparator [a.order - b.order] is a
    stable sort: an insertion sort that puts each block before the first
    block of the already sorted rest whose order is not smaller. *)
Fixpoint insert_by_order (b : Block) (l : list Block) : list Block :=
  match l with
  | [] => [b]
  | x :: l' => if b_order b <=? b_order x then b :: l else x :: insert_by_order b l'
  end.

Fixpoint sort_by_order (l : list Block) : list Block :=
  match l with
  | [] => []
  | b :: l' => insert_by_order b (sort_by_order l')
  end.

(** Lines 17-18. *)
Definition pageBlocks (s : AppState) : list Block :=
  List.filter (fun b => negb (b_is_page b)) (blocks s).

Definition sortedBlocks (s : AppState) : list Block := sort_by_order (pageBlocks s).

(** [linkRegex = /\[\[([^\]]+)\]\]/] tried at the start of [s]: the capture
    and the rest after the match. *)
Fixpoint run_no_bracket (s : string) : string * string :=
  match s with
  | EmptyString => (EmptyString, EmptyString)
  | String c s' =>
      if Ascii.eqb c "]"%char then (EmptyString, s)
      else let '(r, t) := run_no_bracket s' in (String c r, t)
  end.

Definition match_link (s : string) : option (string * string) :=
  match s with
  | String a (String b s1) =>
      if Ascii.eqb a "["%char && Ascii.eqb b "["%char then
        let '(cap, rest) := run_no_bracket s1 in
        match cap, rest with
        | EmptyString, _ => None
        | _, String c (String d rest') =>
            if Ascii.eqb c "]"%char && Ascii.eqb d "]"%char then Some (cap, rest') else None
        | _, _ => None
        end
      else None
  | _ => None
  end.

(** [String.prototype.split] with a regular expression that has one capture
    group and never matches the empty string: [cur] is the text since the
    last match; each match contributes the text before it and its capture. *)
Fixpoint split_links_go (fuel : nat) (cur s : string) : list string :=
  match fuel with
  | O => [cur +:+ s]
  | S n =>
      match match_link s with
      | Some (cap, rest) => cur :: cap :: split_links_go n EmptyString rest
      | None =>
          match s with
          | EmptyString => [cur]
          | String c s' => split_links_go n (cur +:+ String c EmptyString) s'
          end
      end
  end.

Definition split_links (content : string) : list string :=
  split_links_go (String.length content) EmptyString content.

(** What [renderContent] (lines 79-99) renders for a part: the parts at odd
    indices are page links, shown as [[[part]]]. *)
Inductive Rendered :=
| RText (s : string)
| RLink (title : string).

Fixpoint tag_parts (odd : bool) (l : list string) : list Rendered :=
  match l with
  | [] => []
  | p :: l' => (if odd then RLink p else RText p) :: tag_parts (negb odd) l'
  end.

Definition renderContent (content : string) : list Rendered :=
  tag_parts false (split_links content).

(** The text a rendered part shows. *)
Definition shown (r : Rendered) : string :=
  match r with
  | RText s => s
  | RLink t => "[[" +:+ t +:+ "]]"
  end.

Fixpoint concat_strings (l : list string) : string :=
  match l with
  | [] => EmptyString
  | s :: l' => s +:+ concat_strings l'
  end.

(** The cleanup of the effect of lines 63-77, with the values of the render
    that installed it: the request it passes to [createBlock] (no audio
    metadata). *)
Definition newBlock_cleanup (newBlockContent : string) (s : AppState)
  : option CreateBlockRequest :=
  if trim_nonempty newBlockContent then
    match currentPage s with
    | Some page =>
        Some (mkCreateBlockRequest (Some newBlockContent) (Some (b_id page))
                (Z.of_nat (length (sortedBlocks s))) false None)
    | None => None
    end
  else None.

(** Typing [keys] one character at a time into the new-block textarea whose
    text is [prev], while the store [s] does not change: each keystroke
    changes [newBlockContent], a dependency of the effect, so React runs the
    cleanup of the previous render before installing the new effect.  The
    requests passed to [createBlock], in order. *)
Fixpoint type_keys (s : AppState) (prev keys : string) : list CreateBlockRequest :=
  match keys with
  | EmptyString => []
  | String c rest =>
      let next := prev +:+ String c EmptyString in
      match newBlock_cleanup prev s with
      | Some q => q :: type_keys s next rest
      | None => type_keys s next rest
      end
  end.

(* ------------------------------------------------------------------ *)
(** ** Recording toggle and clocks (AudioControls.tsx, BlockEditor.tsx) *)

(** [handleToggleRecording] (AudioControls.tsx, lines 18-34): the store
    action it calls, on the store of the last render. *)
Definition handleToggleRecording (s : AppState) : option Event :=
  match currentPage s with
  | None => None (* alert('Please select a page before recording') *)
  | Some page =>
      Some (if isRecording (audioState s) then EvStopRecording
            else EvStartRecording (b_id page))
  end.

Definition click_toggle (w : World) : World :=
  match handleToggleRecording (app w) with
  | Some e => step w e
  | None => w
  end.

(** [x.toString().padStart(2, '0')]; [pretty] on [Z] is [Number.prototype.toString]
    on integers. *)
Definition padStart2 (s : string) : string :=
  match String.length s with
  | O => "00"
  | S O => "0" +:+ s
  | _ => s
  end.

(** [formatRecordingTime] (AudioControls.tsx, lines 36-44); [Z.rem] is the
    JavaScript [%], whose result has the sign of the dividend. *)
Definition formatRecordingTime (a : AudioState) (now : Z) : string :=
  if negb (truthy_num (startTime a)) then "00:00"
  else
    match startTime a with
    | Some st =>
        let elapsed := offset_of now st in
        let minutes := elapsed / 60 in
        let seconds := Z.rem elapsed 60 in
        padStart2 (pretty minutes) +:+ ":" +:+ padStart2 (pretty seconds)
    | None => "00:00"
    end.

(** The audio indicator of a block (BlockEditor.tsx, lines 194-195). *)
Definition timestamp_label (ts : AudioTimestamp) : string :=
  pretty (ts_timestamp_seconds ts / 60) +:+ ":"
  +:+ padStart2 (pretty (Z.rem (ts_timestamp_seconds ts) 60)).

(** Reading a clock display back: decimal digits, [:], decimal digits
    (seconds below 60), nothing else. *)
Definition digit_val (c : ascii) : option N :=
  let n := Ascii.nat_of_ascii c in
  if (48 <=? n)%nat && (n <=? 57)%nat then Some (N.of_nat (n - 48)) else None.

Fixpoint read_digits (acc : N) (s : string) : N * string :=
  match s with
  | EmptyString => (acc, EmptyString)
  | String c s' =>
      match digit_val c with
      | Some d => read_digits (10 * acc + d)%N s'
      | None => (acc, s)
      end
  end.

Definition parse_clock (s : string) : option Z :=
  let '(m, r) := read_digits 0 s in
  match r with
  | String c r' =>
      if Ascii.eqb c ":"%char then
        let '(sec, r'') := read_digits 0 r' in
        match r'' with
        | EmptyString => if (sec <? 60)%N then Some (60 * Z.of_N m + Z.of_N sec) else None
        | _ => None
        end
      else None
  | EmptyString => None
  end.

(* ------------------------------------------------------------------ *)
(** ** Saving an edited block (BlockEditor.tsx, lines 23-105) *)

(** A store action called by the block editor. *)
Inductive SaveCall :=
| CallUpdate (id content : string)
| CallDelete (id : string).

(** [newContent === block.content], where [block.content] may be
    [undefined]. *)
Definition same_content (c : string) (o : option string) : bool :=
  match o with Some c' => String.eqb c c' | None => false end.

(** [performSave] (lines 23-43). *)
Definition performSave (block : Block) (newContent : string) : list SaveCall :=
  if negb (trim_nonempty newContent) && negb (same_content newContent (b_content block))
  then []
  else if same_content newContent (b_content block) then []
  else [CallUpdate (b_id block) newContent].

(** [debouncedSave.flush()]: runs the pending debounced call, if any, now. *)
Definition flush (block : Block) (pendingSave : option string) : list SaveCall :=
  match pendingSave with
  | Some nc => performSave block nc
  | None => []
  end.

(** [handleSave] (lines 69-97): [pendingSave] is the argument of the
    debounced call not yet run, [content] the text of the editor. *)
Definition handleSave (block : Block) (pendingSave : option string) (content : string)
  : list SaveCall :=
  flush block pendingSave ++
  (if negb (trim_nonempty content) then [CallDelete (b_id block)]
   else if negb (same_content content (b_content block))
   then [CallUpdate (b_id block) content]
   else []).

(** [handleBlur] (lines 99-105). *)
Definition handleBlur (block : Block) (pendingSave : option string) (content : string)
  : list SaveCall :=
  if negb (same_content content (b_content block)) then flush block pendingSave else [].

(** Blocks in ascending [order]. *)
Definition order_le (a b : Block) : Prop := b_order a <= b_order b.

(** The texts of the textarea before each keystroke of [keys], from [prev]. *)
Fixpoint typed_prefixes (prev keys : string) : list string :=
  match keys with
  | EmptyString => []
  | String c rest => prev :: typed_prefixes (prev +:+ String c EmptyString) rest
  end.

(** A recording started at wall-clock time 1000. *)
Definition rec_state : AudioState := mkAudioState true (Some "0") (Some "daily") (Some 1000) [].

(* ------------------------------------------------------------------ *)
(** * Properties *)

(** The scenario of the spec: B1 at 2 s, B2 at 5 s, duration 7 s. *)
Example scenario1_bindings :
  let d := db (run (init true) scenario1) in
  load_binding d "1" = Some (mkAudioTimestamp 1 "1" "0" 2 None) /\
  load_binding d "2" = Some (mkAudioTimestamp 2 "2" "0" 5 None) /\
  map ar_duration_seconds (db_recordings d) = [Some 7].
Proof. vm_compute. repeat split. Qed.

(* ------------------------------------------------------------------ *)
(** ** createBlock: frame *)

(** C10: a successful [createBlock] appends the new block to the end of the
    block list and leaves every other field of the store unchanged; a failed
    one leaves the block list (and every field but [error]) unchanged and only
    sets [error]. *)
Theorem createBlock_frame (tf : bool) (res : Result Block) (s : AppState) :
  match createBlock tf res s with
  | (s', Ok b) =>
      blocks s' = blocks s ++ [b] /\ currentPage s' = currentPage s /\
      audioState s' = audioState s /\ isLoading s' = isLoading s /\ error s' = error s
  | (s', Err _) =>
      blocks s' = blocks s /\ currentPage s' = currentPage s /\
      audioState s' = audioState s /\ isLoading s' = isLoading s /\
      exists e, error s' = Some e
  end.
Proof.
  unfold createBlock. destruct tf; [destruct res|]; simpl; repeat split; eauto.
Qed.

(* ------------------------------------------------------------------ *)
(** ** Playback *)

(** C9 (as stated, refuted): playing a binding whose audio file cannot be
    read completes normally; no [RecordingUnavailable] error reaches the
    caller. *)
Lemma play_missing_file_no_error :
  snd (playAudioFromTimestamp (fun _ => false) missing_file_timestamp)
    <> Thrown "RecordingUnavailable".
Proof. vm_compute. discriminate. Qed.

(** C9 (amended): [playAudioFromTimestamp] always returns normally to its
    caller (it never throws); when the file cannot be played, the rejection
    of [audio.play()] is caught and only logged to the console. *)
Theorem play_never_throws (readable : string -> bool) (t : AudioTimestamp) :
  snd (playAudioFromTimestamp readable t) = Normal /\
  forall r, ts_recording t = Some r -> readable (ar_file_path r) = false ->
    ConsoleError "Failed to play audio:" ∈ fst (playAudioFromTimestamp readable t).
Proof.
  unfold playAudioFromTimestamp. destruct (ts_recording t) as [r|]; split; auto.
  - intros r' [= <-] Hr. simpl. rewrite Hr. set_solver.
  - intros r' Hr. discriminate.
Qed.

Lemma play_never_throws_witness :
  snd (playAudioFromTimestamp (fun _ => false) missing_file_timestamp) = Normal /\
  ConsoleError "Failed to play audio:"
    ∈ fst (playAudioFromTimestamp (fun _ => false) missing_file_timestamp).
Proof.
  destruct (play_never_throws (fun _ => false) missing_file_timestamp) as [H1 H2].
  split; [exact H1|].
  apply (H2 (mkAudioRecording "0" "daily" "recordings/0.wav" (Some 7) "1700000000000"));
    reflexivity.
Defined.

(* ------------------------------------------------------------------ *)
(** ** Clock source of the offsets *)

(** C1 (as stated, refuted): two runs in which the same monotonic time
    elapses between start and creation, and which differ only by a wall-clock
    adjustment, record different offsets. *)
Lemma offset_depends_on_wall_clock :
  mono (run (init true) start_then_enter) = mono (run (init true) start_adjust_enter) /\
  create_metas (out (run (init true) start_then_enter)) = [mkAudioMeta "0" 5] /\
  create_metas (out (run (init true) start_adjust_enter)) = [mkAudioMeta "0" (-3595)].
Proof. vm_compute. repeat split. Qed.

(** C3 (as stated, refuted): when the wall clock is set back between two
    creations of one session, the second offset is smaller (5 then 2). *)
Lemma offsets_can_decrease :
  create_metas (out (run (init true) enter_adjust_enter))
    = [mkAudioMeta "0" 5; mkAudioMeta "0" 2] /\
  ~ rid_sorted (create_metas (out (run (init true) enter_adjust_enter))).
Proof.
  assert (H : create_metas (out (run (init true) enter_adjust_enter))
              = [mkAudioMeta "0" 5; mkAudioMeta "0" 2]) by (vm_compute; reflexivity).
  split; [exact H|]. rewrite H. simpl. rewrite Forall_singleton. intros [Hx _].
  specialize (Hx eq_refl). simpl in Hx. lia.
Qed.

(* ------------------------------------------------------------------ *)
(** ** Stopping twice *)

(** C6 (as stated, refuted): the second [stopRecording] does not fail with
    [NotRecording]: its promise fulfils. *)
Lemma second_stop_fulfils :
  last (out (run (init true) start_stop_stop)) = Some (OSettled AStopRecording None) /\
  ~ In (OSettled AStopRecording (Some "NotRecording")) (out (run (init true) start_stop_stop)) /\
  persist_count "0" (out (run (init true) start_stop_stop)) = 1%nat.
Proof.
  vm_compute. split; [reflexivity|]. split; [|reflexivity].
  intros H. repeat destruct H as [H|H]; try discriminate. exact H.
Qed.

(** C6 (amended): once a [stopRecording] has completed successfully, a second
    call finds no [recordingId] and returns at once: its promise fulfils,
    nothing is invoked and no state changes, so the recording is persisted
    exactly once across both calls. *)
Theorem second_stop_is_noop (w : World) (n : nat) (k : nat) (r : string) (st : Z)
  (Hp : pending w !! n = Some (CmdStopRecording k r))
  (Hs : db_session (db w) = Some (r, st)) :
  let w1 := step w (EvResolve n) in
  let w2 := step w1 EvStopRecording in
  recordingId (audioState (app w1)) = None /\
  out w2 = out w1 ++ [OSettled AStopRecording None] /\
  app w2 = app w1 /\ db w2 = db w1 /\ pending w2 = pending w1 /\
  persist_count r (out w2) = S (persist_count r (out w)).
Proof.
  simpl. rewrite Hp. unfold resolve, backend_stop_recording. rewrite Hs, String.eqb_refl.
  simpl. repeat split.
  unfold persist_count. rewrite !List.filter_app, !length_app. simpl.
  rewrite String.eqb_refl. simpl. lia.
Qed.

Lemma second_stop_is_noop_witness :
  let w := run (init true) [EvStartRecording "daily"; EvResolve 0; EvStopRecording] in
  pending w !! 0%nat = Some (CmdStopRecording 1 "0") /\
  db_session (db w) = Some ("0", 0) /\
  recordingId (audioState (app (step w (EvResolve 0)))) = None.
Proof.
  intros w. split; [reflexivity|]. split; [reflexivity|].
  exact (proj1 (second_stop_is_noop w 0 1 "0" 0 ltac:(reflexivity) ltac:(reflexivity))).
Defined.

(* ------------------------------------------------------------------ *)
(** ** Lemmas on the trace and the database *)

Lemma uuid_inj (n m : N) : uuid n = uuid m -> n = m.
Proof. unfold uuid. apply (inj pretty). Qed.

Lemma issued_mono (d d' : Db) (s : string) :
  (db_next_uuid d <= db_next_uuid d')%N -> issued d s -> issued d' s.
Proof. intros Hle [n [-> Hn]]. exists n. split; [reflexivity|lia]. Qed.

Lemma issued_fresh (d : Db) (s : string) : issued d s -> s <> uuid (db_next_uuid d).
Proof. intros [n [-> Hn]] Heq. apply uuid_inj in Heq. lia. Qed.

Lemma issued_next (d d' : Db) :
  db_next_uuid d' = N.succ (db_next_uuid d) -> issued d' (uuid (db_next_uuid d)).
Proof. intros H. exists (db_next_uuid d). split; [reflexivity|lia]. Qed.

Lemma started_rids_app (l1 l2 : list Out) :
  started_rids (l1 ++ l2) = started_rids l1 ++ started_rids l2.
Proof. induction l1 as [|o l1 IH]; [reflexivity|]. destruct o; simpl; rewrite ?IH; reflexivity. Qed.

Lemma create_metas_app (l1 l2 : list Out) :
  create_metas (l1 ++ l2) = create_metas l1 ++ create_metas l2.
Proof.
  induction l1 as [|o l1 IH]; [reflexivity|].
  destruct o as [[k q [m|]|k p|k r]| | | | | |]; simpl; rewrite ?IH; reflexivity.
Qed.

Lemma block_exists_spec (d : Db) (x : string) :
  block_exists d x = true <-> exists b, b ∈ db_blocks d /\ b_id b = x.
Proof.
  unfold block_exists. rewrite existsb_exists. split.
  - intros [b [Hb He]]. exists b. rewrite list_elem_of_In. split; [done|].
    by apply String.eqb_eq.
  - intros [b [Hb He]]. exists b. rewrite <- list_elem_of_In. split; [done|].
    by apply String.eqb_eq.
Qed.

Lemma block_exists_grow (d d' : Db) (x : string) :
  (forall b, b ∈ db_blocks d -> b ∈ db_blocks d') ->
  block_exists d x = true -> block_exists d' x = true.
Proof. rewrite !block_exists_spec. intros Hs [b [Hb He]]. eauto. Qed.

Lemma pair_exists_false (d : Db) (bid rid : string) :
  pair_exists d bid rid = false -> (bid, rid) ∉ map ts_pair (db_timestamps d).
Proof.
  unfold pair_exists. intros H Hin. apply list_elem_of_In, in_map_iff in Hin.
  destruct Hin as [row [Hp Hrow]]. unfold ts_pair in Hp. injection Hp as <- <-.
  assert (existsb (fun row0 => String.eqb (ts_block_id row0) (ts_block_id row) &&
                               String.eqb (ts_recording_id row0) (ts_recording_id row))
            (db_timestamps d) = true) as Ht.
  { apply existsb_exists. exists row. rewrite !String.eqb_refl. auto. }
  congruence.
Qed.

Lemma insert_block_spec (d : Db) (now : Z) (q : CreateBlockRequest) (d' : Db) (b : Block) :
  insert_block d now q = Ok (d', b) ->
  db_blocks d' = db_blocks d ++ [b] /\ db_timestamps d' = db_timestamps d /\
  db_next_uuid d' = N.succ (db_next_uuid d) /\ b_id b = uuid (db_next_uuid d) /\
  block_exists d (b_id b) = false /\ db_recordings d' = db_recordings d /\
  db_session d' = db_session d /\ b_audio_timestamp b = None.
Proof.
  unfold insert_block. case_match; [discriminate|].
  destruct (block_exists d (uuid (db_next_uuid d))) eqn:Hx; [discriminate|].
  intros [= <- <-]. simpl. auto 10.
Qed.

Lemma insert_ts_spec (d : Db) (bid rid : string) (t : Z) (d' : Db) (row : AudioTimestamp) :
  insert_audio_timestamp d bid rid t = Ok (d', row) ->
  db_blocks d' = db_blocks d /\ db_timestamps d' = db_timestamps d ++ [row] /\
  db_next_uuid d' = db_next_uuid d /\ ts_pair row = (bid, rid) /\
  ts_timestamp_seconds row = t /\ block_exists d bid = true /\
  pair_exists d bid rid = false.
Proof.
  unfold insert_audio_timestamp.
  destruct (block_exists d bid) eqn:H1; [|discriminate].
  destruct (recording_exists d rid) eqn:H2; [|discriminate].
  destruct (pair_exists d bid rid) eqn:H3; [discriminate|].
  intros [= <- <-]. simpl. auto 10.
Qed.

Lemma backend_create_block_spec (d : Db) (now : Z) (k : nat) (q : CreateBlockRequest)
  (m : option AudioMeta) (d' : Db) (os : list Out) (res : Result Block) :
  backend_create_block d now k q m = (d', os, res) ->
  (d' = d /\ os = []) \/
  exists b d1, insert_block d now q = Ok (d1, b) /\
    ((d' = d1 /\ m = None /\ os = [OCreated k (b_id b)]) \/
     (exists meta e, d' = d1 /\ m = Some meta /\ os = [OCreated k (b_id b); OBindFailed k e]) \/
     (exists meta row, m = Some meta /\
        insert_audio_timestamp d1 (b_id b) (recording_id meta) (timestamp meta) = Ok (d', row) /\
        os = [OCreated k (b_id b); OBound k (b_id b) (recording_id meta) (timestamp meta)])).
Proof.
  unfold backend_create_block.
  destruct (insert_block d now q) as [[d1 b]|e] eqn:Hb.
  - destruct m as [meta|].
    + destruct (insert_audio_timestamp d1 (b_id b) (recording_id meta) (timestamp meta))
        as [[d2 row]|e] eqn:Ht; intros [= <- <- _]; right; exists b, d1; split; auto.
      * right; right. eauto.
      * right; left. eauto.
    + intros [= <- <- _]. right. exists b, d1. auto.
  - intros [= <- <- _]. left. auto.
Qed.

Lemma backend_start_recording_spec (d : Db) (now mono0 : Z) (k : nat) (pid : string)
  (d' : Db) (os : list Out) (res : Result string) :
  backend_start_recording d now mono0 k pid = (d', os, res) ->
  (d' = d /\ os = [] /\ exists e, res = Err e) \/
  (res = Ok (uuid (db_next_uuid d)) /\ os = [OStarted k (uuid (db_next_uuid d))] /\
   db_blocks d' = db_blocks d /\ db_timestamps d' = db_timestamps d /\
   db_next_uuid d' = N.succ (db_next_uuid d)).
Proof.
  unfold backend_start_recording. case_match.
  - intros [= <- <- <-]. left. eauto.
  - destruct (block_exists d pid); simpl.
    + intros [= <- <- <-]. right. simpl. auto 10.
    + intros [= <- <- <-]. left. eauto.
Qed.

Lemma backend_stop_recording_spec (d : Db) (mono0 : Z) (k : nat) (rid : string)
  (d' : Db) (os : list Out) (res : Result unit) :
  backend_stop_recording d mono0 k rid = (d', os, res) ->
  db_blocks d' = db_blocks d /\ db_timestamps d' = db_timestamps d /\
  db_next_uuid d' = db_next_uuid d /\ (os = [] \/ os = [OPersisted k rid]).
Proof.
  unfold backend_stop_recording. repeat case_match; intros [= <- <- _]; simpl; auto 10.
Qed.

Lemma started_rids_unreq (os : list Out) :
  Forall (fun o => out_req o = None) os -> started_rids os = [].
Proof. induction 1 as [|o os Ho _ IH]; [done|]. destruct o; try discriminate. exact IH. Qed.

Lemma block_exists_same_blocks (d d' : Db) (x : string) :
  db_blocks d' = db_blocks d -> block_exists d' x = block_exists d x.
Proof. unfold block_exists. intros ->. reflexivity. Qed.

Lemma Inv_init (tf : bool) : Inv (init tf).
Proof.
  split; simpl; try (intros; set_solver); try constructor.
Qed.

(** The parts of [Inv] about what a step adds; what was there before is
    carried over. *)
Lemma Inv_after (w w' : World) (os : list Out) :
  Inv w ->
  (forall c, c ∈ pending w' -> c ∈ pending w) ->
  next_req w' = next_req w ->
  out w' = out w ++ os ->
  (db_next_uuid (db w) <= db_next_uuid (db w'))%N ->
  (forall o k', o ∈ os -> out_req o = Some k' -> (k' < next_req w)%nat) ->
  (forall k' b, OCreated k' b ∈ os -> issued (db w') b) ->
  (forall row, row ∈ db_timestamps (db w') -> block_exists (db w') (ts_block_id row) = true) ->
  NoDup (map ts_pair (db_timestamps (db w'))) ->
  (forall r, r ∈ started_rids os -> issued (db w') r) ->
  NoDup (started_rids (out w')) ->
  (forall r, recordingId (audioState (app w')) = Some r ->
     exists l, started_rids (out w') = l ++ [r]) ->
  Inv w'.
Proof.
  intros [H1 H2 H3 H4 H5 H6 H7 H8] Hp Hn Ho Hle Hos Hcr Hfk Hu Hst Hnd Hcur.
  split; auto.
  - intros c Hc. rewrite Hn. auto.
  - intros o k' Ho' Hk'. rewrite Hn. rewrite Ho in Ho'.
    apply elem_of_app in Ho' as [Ho'|Ho']; [eauto|].
    eauto.
  - intros k' b Hb. rewrite Ho in Hb. apply elem_of_app in Hb as [Hb|Hb]; [|eauto].
    eapply issued_mono; eauto.
  - intros r Hr. rewrite Ho, started_rids_app in Hr.
    apply elem_of_app in Hr as [Hr|Hr]; [|eauto]. eapply issued_mono; eauto.
Qed.

Lemma Inv_issue (w : World) (c : Cmd) : Inv w -> cmd_req c = next_req w -> Inv (issue c w).
Proof.
  intros HI Hc. destruct HI as [H1 H2 H3 H4 H5 H6 H7 H8]. unfold issue.
  split; simpl; rewrite ?started_rids_app; simpl; rewrite ?app_nil_r; auto.
  - intros c' Hc'. apply elem_of_app in Hc' as [Hc'|Hc'].
    + apply H1 in Hc'. lia.
    + apply list_elem_of_singleton in Hc'. subst. lia.
  - intros o k Ho Hk. apply elem_of_app in Ho as [Ho|Ho].
    + apply (H2 _ _ Ho) in Hk. lia.
    + apply list_elem_of_singleton in Ho. subst. simpl in Hk. injection Hk. lia.
  - intros k b Hb. apply elem_of_app in Hb as [Hb|Hb]; [eauto|].
    apply list_elem_of_singleton in Hb. discriminate.
Qed.

Lemma Inv_frame (w w' : World) (os : list Out) :
  Inv w -> (forall c, c ∈ pending w' -> c ∈ pending w) -> next_req w' = next_req w ->
  db w' = db w -> out w' = out w ++ os -> Forall (fun o => out_req o = None) os ->
  (recordingId (audioState (app w')) = recordingId (audioState (app w)) \/
   recordingId (audioState (app w')) = None) ->
  Inv w'.
Proof.
  intros HI Hp Hn Hd Ho Hos Hr. pose proof HI as [H1 H2 H3 H4 H5 H6 H7 H8].
  assert (Hs : started_rids (out w') = started_rids (out w)).
  { rewrite Ho, started_rids_app, (started_rids_unreq _ Hos), app_nil_r. reflexivity. }
  apply (Inv_after w w' os HI Hp); rewrite ?Hn, ?Hd, ?Hs, ?(started_rids_unreq _ Hos); auto.
  - intros o k Ho' Hk. rewrite Forall_forall in Hos. rewrite (Hos _ Ho') in Hk. discriminate.
  - intros k b Hb. rewrite Forall_forall in Hos. specialize (Hos _ Hb). discriminate.
  - intros r Hr'. set_solver.
  - intros r Hr'. destruct Hr as [Hr|Hr]; rewrite Hr in Hr'; [eauto|discriminate].
Qed.

Lemma started_rids_nil (os : list Out) :
  Forall (fun o => started_rids [o] = []) os -> started_rids os = [].
Proof.
  induction 1 as [|o os Ho _ IH]; [done|].
  change (o :: os) with ([o] ++ os). rewrite started_rids_app, Ho, IH. done.
Qed.

Lemma settle_req {A} (a : Action) (r : Result A) : out_req (settle a r) = None.
Proof. destruct r; reflexivity. Qed.

Lemma Inv_resolve_create (w : World) (n k : nat) (q : CreateBlockRequest)
  (m : option AudioMeta) :
  Inv w -> pending w !! n = Some (CmdCreateBlock k q m) ->
  Inv (resolve (CmdCreateBlock k q m) (delete n (pending w)) w).
Proof.
  intros HI Hc. pose proof HI as [H1 H2 H3 H4 H5 H6 H7 H8].
  assert (Hk : (k < next_req w)%nat) by apply (H1 _ (list_elem_of_lookup_2 _ _ _ Hc)).
  assert (Hpend : forall c, c ∈ delete n (pending w) -> c ∈ pending w)
    by (intros c; apply list_elem_of_delete_inv).
  unfold resolve.
  destruct (backend_create_block (db w) (wall w) k q m) as [[d os] res] eqn:E.
  destruct (createBlock true res (app w)) as [s r] eqn:E2.
  assert (Ha : audioState s = audioState (app w))
    by (destruct res; simpl in E2; injection E2 as <- _; reflexivity).
  assert (Hfacts : (db_next_uuid (db w) <= db_next_uuid d)%N /\
     (forall row, row ∈ db_timestamps d -> block_exists d (ts_block_id row) = true) /\
     NoDup (map ts_pair (db_timestamps d)) /\
     (forall k' b', OCreated k' b' ∈ os -> issued d b') /\
     Forall (fun o => out_req o = Some k /\ started_rids [o] = []) os).
  { apply backend_create_block_spec in E as [[-> ->]|[b [d1 [Hb Hcase]]]].
    - split; [lia|]. split; [exact H4|]. split; [exact H5|]. split; [set_solver|constructor].
    - apply insert_block_spec in Hb as (Hb1 & Hb2 & Hb3 & Hb4 & Hb5 & _).
      assert (Hgrow : forall x, block_exists (db w) x = true -> block_exists d1 x = true).
      { intros x. apply block_exists_grow. rewrite Hb1. set_solver. }
      destruct Hcase as [[-> [_ ->]]|[[meta [e [-> [_ ->]]]]|[meta [row [_ [Ht ->]]]]]].
      + split; [lia|]. split; [intros row Hrow; rewrite Hb2 in Hrow; auto|].
        split; [rewrite Hb2; exact H5|]. split.
        * intros k' b' Hin. apply list_elem_of_singleton in Hin. injection Hin as _ ->.
          rewrite Hb4. apply issued_next. exact Hb3.
        * repeat constructor.
      + split; [lia|]. split; [intros row Hrow; rewrite Hb2 in Hrow; auto|].
        split; [rewrite Hb2; exact H5|]. split.
        * intros k' b' Hin. apply elem_of_cons in Hin as [Hin|Hin].
          -- injection Hin as _ ->. rewrite Hb4. apply issued_next. exact Hb3.
          -- apply list_elem_of_singleton in Hin. discriminate.
        * repeat constructor.
      + apply insert_ts_spec in Ht as (Ht1 & Ht2 & Ht3 & Ht4 & _ & Ht6 & Ht7).
        split; [lia|]. split; [|split; [|split]].
        * intros row' Hrow. rewrite Ht2 in Hrow.
          rewrite (block_exists_same_blocks d1 d _ Ht1).
          apply elem_of_app in Hrow as [Hrow|Hrow].
          -- rewrite Hb2 in Hrow. auto.
          -- apply list_elem_of_singleton in Hrow. subst row'.
             unfold ts_pair in Ht4. injection Ht4 as -> _. exact Ht6.
        * rewrite Ht2, map_app. simpl. apply NoDup_app. split; [rewrite Hb2; exact H5|].
          split; [|constructor; [set_solver|constructor]].
          intros x Hx Hx'. apply list_elem_of_singleton in Hx'. subst x. rewrite Ht4 in Hx.
          apply (pair_exists_false _ _ _ Ht7). exact Hx.
        * intros k' b' Hin. apply elem_of_cons in Hin as [Hin|Hin].
          -- injection Hin as _ ->. rewrite Hb4. apply issued_next. lia.
          -- apply list_elem_of_singleton in Hin. discriminate.
        * repeat constructor. }
  destruct Hfacts as (Hle & Hfk & Hu & Hcr & Hos).
  assert (Hst : started_rids (os ++ [settle ACreateBlock r]) = []).
  { rewrite started_rids_app, (started_rids_nil os).
    - destruct r; reflexivity.
    - eapply Forall_impl; [exact Hos|]. intros o [_ Ho]. exact Ho. }
  apply (Inv_after w _ (os ++ [settle ACreateBlock r]) HI); simpl; auto.
  - intros o k' Ho Hk'. apply elem_of_app in Ho as [Ho|Ho].
    + rewrite Forall_forall in Hos. destruct (Hos _ Ho) as [Hr _]. congruence.
    + apply list_elem_of_singleton in Ho. subst o. rewrite settle_req in Hk'. discriminate.
  - intros k' b' Hin. apply elem_of_app in Hin as [Hin|Hin]; [eauto|].
    apply list_elem_of_singleton in Hin. destruct r; discriminate.
  - rewrite Hst. set_solver.
  - rewrite started_rids_app, Hst, app_nil_r. exact H7.
  - rewrite started_rids_app, Hst, app_nil_r, Ha. exact H8.
Qed.

Lemma Inv_resolve_start (w : World) (n k : nat) (pid : string) :
  Inv w -> pending w !! n = Some (CmdStartRecording k pid) ->
  Inv (resolve (CmdStartRecording k pid) (delete n (pending w)) w).
Proof.
  intros HI Hc. pose proof HI as [H1 H2 H3 H4 H5 H6 H7 H8].
  assert (Hk : (k < next_req w)%nat) by apply (H1 _ (list_elem_of_lookup_2 _ _ _ Hc)).
  assert (Hpend : forall c, c ∈ delete n (pending w) -> c ∈ pending w)
    by (intros c; apply list_elem_of_delete_inv).
  unfold resolve.
  destruct (backend_start_recording (db w) (wall w) (mono w) k pid) as [[d os] res] eqn:E.
  destruct (startRecording_k pid (wall w) res (app w)) as [s r] eqn:E2.
  apply backend_start_recording_spec in E
    as [[-> [-> [e ->]]]|[-> [-> (Hb1 & Hb2 & Hb3)]]].
  - simpl in E2. injection E2 as <- <-.
    apply (Inv_frame w _ [settle AStartRecording (@Err unit e)] HI); simpl; auto.
  - simpl in E2. injection E2 as <- <-. set (rid := uuid (db_next_uuid (db w))).
    assert (Hst : started_rids (out w ++ [OStarted k rid; settle AStartRecording (Ok tt)])
                  = started_rids (out w) ++ [rid])
      by (rewrite started_rids_app; reflexivity).
    apply (Inv_after w _ [OStarted k rid; settle AStartRecording (Ok tt)] HI); simpl; auto.
    + lia.
    + intros o k' Ho Hk'. apply elem_of_cons in Ho as [->|Ho].
      * injection Hk' as <-. exact Hk.
      * apply list_elem_of_singleton in Ho. subst o. discriminate.
    + intros k' b Hb. apply elem_of_cons in Hb as [Hb|Hb]; [discriminate|].
      apply list_elem_of_singleton in Hb. discriminate.
    + intros row Hrow. rewrite (block_exists_same_blocks (db w) d _ Hb1).
      rewrite Hb2 in Hrow. auto.
    + rewrite Hb2. exact H5.
    + intros r Hr. apply list_elem_of_singleton in Hr. subst r. apply issued_next. exact Hb3.
    + rewrite Hst. apply NoDup_app. split; [exact H7|]. split; [|constructor; [set_solver|constructor]].
      intros x Hx Hx'. apply list_elem_of_singleton in Hx'. subst x.
      apply (issued_fresh (db w) rid (H6 _ Hx)). reflexivity.
    + intros r [= <-]. rewrite Hst. eauto.
Qed.

Lemma Inv_resolve_stop (w : World) (n k : nat) (rid : string) :
  Inv w -> pending w !! n = Some (CmdStopRecording k rid) ->
  Inv (resolve (CmdStopRecording k rid) (delete n (pending w)) w).
Proof.
  intros HI Hc. pose proof HI as [H1 H2 H3 H4 H5 H6 H7 H8].
  assert (Hk : (k < next_req w)%nat) by apply (H1 _ (list_elem_of_lookup_2 _ _ _ Hc)).
  assert (Hpend : forall c, c ∈ delete n (pending w) -> c ∈ pending w)
    by (intros c; apply list_elem_of_delete_inv).
  unfold resolve.
  destruct (backend_stop_recording (db w) (mono w) k rid) as [[d os] res] eqn:E.
  destruct (stopRecording_k res (app w)) as [s r] eqn:E2.
  apply backend_stop_recording_spec in E as (Hb1 & Hb2 & Hb3 & Hos).
  assert (Hst : started_rids (out w ++ os ++ [settle AStopRecording r]) = started_rids (out w)).
  { rewrite !started_rids_app. destruct Hos as [->| ->]; destruct r; simpl;
      rewrite ?app_nil_r; reflexivity. }
  apply (Inv_after w _ (os ++ [settle AStopRecording r]) HI); simpl; auto.
  - lia.
  - intros o k' Ho Hk'. apply elem_of_app in Ho as [Ho|Ho].
    + destruct Hos as [->| ->]; [set_solver|].
      apply list_elem_of_singleton in Ho. subst o. injection Hk' as <-. exact Hk.
    + apply list_elem_of_singleton in Ho. subst o. rewrite settle_req in Hk'. discriminate.
  - intros k' b Hb. apply elem_of_app in Hb as [Hb|Hb].
    + destruct Hos as [->| ->]; [set_solver|].
      apply list_elem_of_singleton in Hb. discriminate.
    + apply list_elem_of_singleton in Hb. destruct r; discriminate.
  - intros row Hrow. rewrite (block_exists_same_blocks (db w) d _ Hb1).
    rewrite Hb2 in Hrow. auto.
  - rewrite Hb2. exact H5.
  - intros r' Hr'. rewrite started_rids_app in Hr'.
    destruct Hos as [->| ->]; destruct r; simpl in Hr'; set_solver.
  - rewrite Hst. exact H7.
  - rewrite Hst. intros r' Hr'. destruct res; simpl in E2; injection E2 as <- _;
      simpl in Hr'; [discriminate|eauto].
Qed.

Lemma Inv_step (w : World) (e : Event) : Inv w -> Inv (step w e).
Proof.
  intros HI. destruct e as [d|t|content|pid| |n]; simpl.
  - apply (Inv_frame w _ [] HI); simpl; rewrite ?app_nil_r; auto.
  - apply (Inv_frame w _ [] HI); simpl; rewrite ?app_nil_r; auto.
  - destruct (trim_nonempty content); [|exact HI].
    destruct (currentPage (app w)) as [page|]; [|exact HI].
    destruct (tauri w); [apply Inv_issue; auto|].
    apply (Inv_frame w _ [settle ACreateBlock
                           (@Err Block "Tauri API not available, cannot create block.")] HI);
      simpl; auto.
  - destruct (tauri w); [apply Inv_issue; auto|].
    apply (Inv_frame w _ [OSettled AStartRecording None] HI); simpl; auto.
  - destruct (truthy_str (recordingId (audioState (app w)))).
    + destruct (recordingId (audioState (app w))) as [r|]; [|exact HI].
      destruct (tauri w); [apply Inv_issue; auto|].
      apply (Inv_frame w _ [OSettled AStopRecording None] HI); simpl; auto.
    + apply (Inv_frame w _ [OSettled AStopRecording None] HI); simpl; auto.
  - destruct (pending w !! n) as [c|] eqn:Hc; [|exact HI].
    destruct c; [apply Inv_resolve_create|apply Inv_resolve_start|apply Inv_resolve_stop];
      assumption.
Qed.

Lemma Inv_run (w : World) (es : list Event) : Inv w -> Inv (run w es).
Proof. revert w. induction es as [|e es IH]; intros w HI; [exact HI|]. apply IH, Inv_step, HI. Qed.

Lemma Inv_reachable (tf : bool) (es : list Event) : Inv (run (init tf) es).
Proof. apply Inv_run, Inv_init. Qed.

(* ------------------------------------------------------------------ *)
(** ** Bindings are unique per (block, recording) *)

(** C7: in every reachable database at most one [audio_timestamps] row exists
    for each (block, recording) pair, and inserting a second row for a pair
    that has one is rejected. *)
Theorem audio_timestamps_unique (tf : bool) (es : list Event) :
  let d := db (run (init tf) es) in
  NoDup (map ts_pair (db_timestamps d)) /\
  forall bid rid t, pair_exists d bid rid = true ->
    exists e, insert_audio_timestamp d bid rid t = Err e.
Proof.
  intros d. split; [apply (inv_unique _ (Inv_reachable tf es))|].
  intros bid rid t Hp. unfold insert_audio_timestamp. rewrite Hp.
  destruct (block_exists d bid), (recording_exists d rid); simpl; eauto.
Qed.

Lemma audio_timestamps_unique_witness :
  NoDup (map ts_pair (db_timestamps (db (run (init true) scenario1)))) /\
  exists e, insert_audio_timestamp (db (run (init true) scenario1)) "1" "0" 9 = Err e.
Proof.
  destruct (audio_timestamps_unique true scenario1) as [H1 H2].
  split; [exact H1|]. apply H2. vm_compute. reflexivity.
Defined.

(* ------------------------------------------------------------------ *)
(** ** Following one create-block request *)

Lemma find_block_none (l : list AudioTimestamp) (b : string) :
  (forall row, row ∈ l -> ts_block_id row <> b) ->
  find (fun row => String.eqb (ts_block_id row) b) l = None.
Proof.
  induction l as [|row l IH]; intros H; [reflexivity|]. simpl.
  destruct (String.eqb_spec (ts_block_id row) b) as [He|He].
  - exfalso. apply (H row); [set_solver|exact He].
  - apply IH. intros row' Hr. apply H. set_solver.
Qed.

Lemma find_block_snoc (l : list AudioTimestamp) (row : AudioTimestamp) (b : string) :
  ts_block_id row <> b ->
  find (fun row => String.eqb (ts_block_id row) b) (l ++ [row]) =
  find (fun row => String.eqb (ts_block_id row) b) l.
Proof.
  intros Hne. induction l as [|r l IH]; simpl.
  - destruct (String.eqb_spec (ts_block_id row) b); [contradiction|reflexivity].
  - destruct (String.eqb (ts_block_id r) b); [reflexivity|exact IH].
Qed.

(** A fresh block (not yet in [db_blocks]) has no binding. *)
Lemma load_binding_fresh (w : World) (b : string) :
  Inv w -> block_exists (db w) b = false -> load_binding (db w) b = None.
Proof.
  intros HI Hb. apply find_block_none. intros row Hrow Heq.
  pose proof (inv_fk_block _ HI row Hrow) as Hfk. rewrite Heq in Hfk. congruence.
Qed.

Lemma resolve_facts (c : Cmd) (rest : list Cmd) (w : World) :
  let w' := resolve c rest w in
  pending w' = rest /\ next_req w' = next_req w /\
  (exists os, out w' = out w ++ os /\
     forall o k', o ∈ os -> out_req o = Some k' -> k' = cmd_req c) /\
  (db_timestamps (db w') = db_timestamps (db w) \/
   exists row, db_timestamps (db w') = db_timestamps (db w) ++ [row] /\
               ts_block_id row = uuid (db_next_uuid (db w))).
Proof.
  destruct c as [k q m|k pid|k rid]; unfold resolve.
  - destruct (backend_create_block (db w) (wall w) k q m) as [[d os] res] eqn:E.
    destruct (createBlock true res (app w)) as [s r]. simpl.
    split; [reflexivity|]. split; [reflexivity|].
    apply backend_create_block_spec in E as [[-> ->]|[b [d1 [Hb Hcase]]]].
    + split; [|left; reflexivity]. exists ([] ++ [settle ACreateBlock r]).
      split; [reflexivity|]. intros o k' Ho Hk. set_unfold in Ho. destruct_or! Ho; subst o.
      rewrite settle_req in Hk. discriminate.
    + apply insert_block_spec in Hb as (Hb1 & Hb2 & Hb3 & Hb4 & _).
      destruct Hcase as [[-> [_ ->]]|[[meta [e [-> [_ ->]]]]|[meta [row [_ [Ht ->]]]]]].
      * split; [|left; exact Hb2]. eexists. split; [reflexivity|].
        intros o k' Ho Hk. set_unfold in Ho. destruct_or! Ho; subst o; simpl in Hk;
          [congruence|destruct r; simpl in Hk; discriminate].
      * split; [|left; exact Hb2]. eexists. split; [reflexivity|].
        intros o k' Ho Hk. set_unfold in Ho. destruct_or! Ho; subst o; simpl in Hk;
          [congruence|congruence|destruct r; simpl in Hk; discriminate].
      * apply insert_ts_spec in Ht as (_ & Ht2 & _ & Ht4 & _).
        split.
        -- eexists. split; [reflexivity|].
           intros o k' Ho Hk. set_unfold in Ho. destruct_or! Ho; subst o; simpl in Hk;
             [congruence|congruence|destruct r; simpl in Hk; discriminate].
        -- right. exists row. rewrite Ht2, Hb2. split; [reflexivity|].
           unfold ts_pair in Ht4. injection Ht4 as -> _. exact Hb4.
  - destruct (backend_start_recording (db w) (wall w) (mono w) k pid) as [[d os] res] eqn:E.
    destruct (startRecording_k pid (wall w) res (app w)) as [s r]. simpl.
    split; [reflexivity|]. split; [reflexivity|].
    apply backend_start_recording_spec in E as [[-> [-> _]]|[_ [-> (_ & Hb2 & _)]]].
    + split; [|left; reflexivity]. eexists. split; [reflexivity|].
      intros o k' Ho Hk. set_unfold in Ho. destruct_or! Ho; subst o.
      rewrite settle_req in Hk. discriminate.
    + split; [|left; exact Hb2]. eexists. split; [reflexivity|].
      intros o k' Ho Hk. set_unfold in Ho. destruct_or! Ho; subst o; simpl in Hk;
        [congruence|destruct r; simpl in Hk; discriminate].
  - destruct (backend_stop_recording (db w) (mono w) k rid) as [[d os] res] eqn:E.
    destruct (stopRecording_k res (app w)) as [s r]. simpl.
    split; [reflexivity|]. split; [reflexivity|].
    apply backend_stop_recording_spec in E as (_ & Hb2 & _ & Hos).
    split; [|left; exact Hb2]. eexists. split; [reflexivity|].
    intros o k' Ho Hk. apply elem_of_app in Ho as [Ho|Ho].
    + destruct Hos as [->| ->]; set_unfold in Ho; destruct_or! Ho; subst o; simpl in Hk;
        congruence.
    + apply list_elem_of_singleton in Ho. subst o. rewrite settle_req in Hk. discriminate.
Qed.

Lemma find_app_some {A} (f : A -> bool) (l l' : list A) (x : A) :
  find f l = Some x -> find f (l ++ l') = Some x.
Proof.
  induction l as [|y l IH]; simpl; [discriminate|].
  destruct (f y); [exact id|exact IH].
Qed.

Lemma stored_grow (d d' : Db) (l : list AudioTimestamp) (b r : string) (t : Z) :
  db_timestamps d' = db_timestamps d ++ l -> stored d b r t -> stored d' b r t.
Proof.
  intros Hl [row [Hrow H]]. exists row. split; [|exact H].
  unfold load_binding in *. rewrite Hl. apply find_app_some, Hrow.
Qed.

Lemma Track_frame (k : nat) (q : CreateBlockRequest) (m : option AudioMeta)
  (w w' : World) (os : list Out) :
  Track k q m w -> (forall c, c ∈ pending w' -> c ∈ pending w) ->
  next_req w' = next_req w -> db w' = db w -> out w' = out w ++ os ->
  Forall (fun o => out_req o = None) os -> Track k q m w'.
Proof.
  intros [T1 T2 T3 T4] Hp Hn Hd Ho Hos. rewrite Forall_forall in Hos.
  split; rewrite ?Hn, ?Hd, ?Ho; auto.
  - intros b r t Hb. apply elem_of_app in Hb as [Hb|Hb]; [eauto|].
    specialize (Hos _ Hb). discriminate.
  - intros Hm b Hb. apply elem_of_app in Hb as [Hb|Hb]; [eauto|].
    specialize (Hos _ Hb). discriminate.
Qed.

Lemma Track_issue (k : nat) (q : CreateBlockRequest) (m : option AudioMeta) (w : World) (c : Cmd) :
  Track k q m w -> cmd_req c = next_req w -> Track k q m (issue c w).
Proof.
  intros [T1 T2 T3 T4] Hc. unfold issue. split; simpl; auto.
  - intros c' Hc' Hk. apply elem_of_app in Hc' as [Hc'|Hc']; [auto|].
    apply list_elem_of_singleton in Hc'. subst c'. lia.
  - intros b r t Hb. apply elem_of_app in Hb as [Hb|Hb]; [eauto|].
    apply list_elem_of_singleton in Hb. discriminate.
  - intros Hm b Hb. apply elem_of_app in Hb as [Hb|Hb]; [eauto|].
    apply list_elem_of_singleton in Hb. discriminate.
Qed.

Lemma Track_resolve (k : nat) (q : CreateBlockRequest) (m : option AudioMeta)
  (w : World) (n : nat) (c : Cmd) :
  Inv w -> Track k q m w -> pending w !! n = Some c ->
  Track k q m (resolve c (delete n (pending w)) w).
Proof.
  intros HI HT Hc. pose proof HT as [T1 T2 T3 T4].
  pose proof (list_elem_of_lookup_2 _ _ _ Hc) as Hcin.
  destruct (decide (cmd_req c = k)) as [Hck|Hck].
  - (* the tracked request itself answers *)
    rewrite (T2 c Hcin Hck). unfold resolve.
    destruct (backend_create_block (db w) (wall w) k q m) as [[d os] res] eqn:E.
    destruct (createBlock true res (app w)) as [s r]. simpl.
    assert (Hpend : forall c', c' ∈ delete n (pending w) -> cmd_req c' = k ->
                      c' = CmdCreateBlock k q m)
      by (intros c' Hc'; apply T2, (list_elem_of_delete_inv _ _ _ Hc')).
    assert (Hold : forall l, db_timestamps d = db_timestamps (db w) ++ l ->
              forall b r' t, OBound k b r' t ∈ out w ->
              m = Some (mkAudioMeta r' t) /\ stored d b r' t)
      by (intros l Hl b r' t Hb; destruct (T3 b r' t Hb) as [Hm Hst];
          split; [exact Hm|exact (stored_grow _ _ l _ _ _ Hl Hst)]).
    apply backend_create_block_spec in E as [[-> ->]|[b [d1 [Hb Hcase]]]].
    + split; simpl; auto.
      * intros b' r' t Hb'. apply elem_of_app in Hb' as [Hb'|Hb'].
        -- apply (Hold []); [rewrite app_nil_r; reflexivity|exact Hb'].
        -- set_unfold in Hb'. destruct_or! Hb'; destruct r; discriminate.
      * intros Hm b' Hb'. apply elem_of_app in Hb' as [Hb'|Hb']; [eauto|].
        set_unfold in Hb'. destruct_or! Hb'; destruct r; discriminate.
    + apply insert_block_spec in Hb as (Hb1 & Hb2 & Hb3 & Hb4 & Hb5 & _).
      destruct Hcase as [[-> [Hm ->]]|[[meta [e [-> [Hm ->]]]]|[meta [row [Hm [Ht ->]]]]]].
      * split; simpl; auto.
        -- intros b' r' t Hb'. apply elem_of_app in Hb' as [Hb'|Hb'].
           ++ apply (Hold []); [rewrite app_nil_r; exact Hb2|exact Hb'].
           ++ set_unfold in Hb'. destruct_or! Hb'; try discriminate; destruct r; discriminate.
        -- intros _ b' Hb'. unfold load_binding. rewrite Hb2.
           apply elem_of_app in Hb' as [Hb'|Hb']; [apply (T4 Hm _ Hb')|].
           set_unfold in Hb'. destruct_or! Hb'; [|destruct r; discriminate].
           injection Hb' as ->. apply (load_binding_fresh w _ HI Hb5).
      * split; simpl; auto.
        -- intros b' r' t Hb'. apply elem_of_app in Hb' as [Hb'|Hb'].
           ++ apply (Hold []); [rewrite app_nil_r; exact Hb2|exact Hb'].
           ++ set_unfold in Hb'. destruct_or! Hb'; try discriminate; destruct r; discriminate.
        -- intros Hm'. congruence.
      * apply insert_ts_spec in Ht as (_ & Ht2 & _ & Ht4 & Ht5 & _).
        rewrite Hb2 in Ht2.
        split; simpl; auto.
        -- intros b' r' t Hb'. apply elem_of_app in Hb' as [Hb'|Hb'].
           ++ exact (Hold [row] Ht2 _ _ _ Hb').
           ++ set_unfold in Hb'. destruct_or! Hb'; try discriminate.
              injection Hb' as H0 H1 H2. subst b' r' t. split.
              ** rewrite Hm. destruct meta; reflexivity.
              ** exists row. unfold ts_pair in Ht4. injection Ht4 as Hrb Hrr.
                 split; [|split; assumption].
                 unfold load_binding. rewrite Ht2.
                 pose proof (load_binding_fresh w _ HI Hb5) as Hnone.
                 unfold load_binding in Hnone.
                 clear -Hnone Hrb. induction (db_timestamps (db w)) as [|x l IH]; simpl in *.
                 --- rewrite Hrb, String.eqb_refl. reflexivity.
                 --- destruct (String.eqb (ts_block_id x) (b_id b)); [discriminate|auto].
        -- intros Hm'. congruence.
  - (* another command answers *)
    destruct (resolve_facts c (delete n (pending w)) w) as (Hp & Hn & [os [Ho Hos]] & Hts).
    split; rewrite ?Hp, ?Hn, ?Ho; auto.
    + intros c' Hc' Hk. apply T2; [|exact Hk]. eapply list_elem_of_delete_inv; eauto.
    + intros b r t Hb. apply elem_of_app in Hb as [Hb|Hb].
      * destruct (T3 b r t Hb) as [Hm Hst]. split; [exact Hm|].
        destruct Hts as [Hts|[row [Hts _]]].
        -- apply (stored_grow (db w) _ [] _ _ _); [rewrite app_nil_r; exact Hts|exact Hst].
        -- exact (stored_grow _ _ [row] _ _ _ Hts Hst).
      * specialize (Hos _ _ Hb eq_refl). congruence.
    + intros Hm b Hb. apply elem_of_app in Hb as [Hb|Hb].
      * unfold load_binding. destruct Hts as [->|[row [-> Hrow]]]; [apply (T4 Hm _ Hb)|].
        rewrite find_block_snoc; [apply (T4 Hm _ Hb)|].
        rewrite Hrow. intros Heq. apply (issued_fresh (db w) b); [|symmetry; exact Heq].
        apply (inv_created _ HI k b Hb).
      * specialize (Hos _ _ Hb eq_refl). congruence.
Qed.

Lemma Track_step (k : nat) (q : CreateBlockRequest) (m : option AudioMeta) (w : World) (e : Event) :
  Inv w -> Track k q m w -> Track k q m (step w e).
Proof.
  intros HI HT. destruct e as [d|t|content|pid| |n]; simpl.
  - apply (Track_frame k q m w _ [] HT); simpl; rewrite ?app_nil_r; auto.
  - apply (Track_frame k q m w _ [] HT); simpl; rewrite ?app_nil_r; auto.
  - destruct (trim_nonempty content); [|exact HT].
    destruct (currentPage (app w)) as [page|]; [|exact HT].
    destruct (tauri w); [apply Track_issue; auto|].
    apply (Track_frame k q m w _ [settle ACreateBlock
                           (@Err Block "Tauri API not available, cannot create block.")] HT);
      simpl; auto.
  - destruct (tauri w); [apply Track_issue; auto|].
    apply (Track_frame k q m w _ [OSettled AStartRecording None] HT); simpl; auto.
  - destruct (truthy_str (recordingId (audioState (app w)))).
    + destruct (recordingId (audioState (app w))) as [r|]; [|exact HT].
      destruct (tauri w); [apply Track_issue; auto|].
      apply (Track_frame k q m w _ [OSettled AStopRecording None] HT); simpl; auto.
    + apply (Track_frame k q m w _ [OSettled AStopRecording None] HT); simpl; auto.
  - destruct (pending w !! n) as [c|] eqn:Hc; [|exact HT].
    apply Track_resolve; assumption.
Qed.

Lemma Track_run (k : nat) (q : CreateBlockRequest) (m : option AudioMeta) (w : World)
  (es : list Event) :
  Inv w -> Track k q m w -> Track k q m (run w es).
Proof.
  revert w. induction es as [|e es IH]; intros w HI HT; [exact HT|].
  apply IH; [apply Inv_step, HI|apply Track_step; assumption].
Qed.

(* ------------------------------------------------------------------ *)
(** ** Block creation from the editor *)

Lemma audioMeta_of_some (a : AudioState) (now : Z) (meta : AudioMeta) :
  audioMeta_of a now = Some meta ->
  isRecording a = true /\ recordingId a = Some (recording_id meta) /\
  exists st, startTime a = Some st /\ timestamp meta = offset_of now st.
Proof.
  intros H. unfold audioMeta_of in H.
  destruct (isRecording a); [|discriminate H].
  destruct (recordingId a) as [rid|], (startTime a) as [st|]; simpl in H;
    repeat case_match; try discriminate H.
  injection H as <-. simpl. eauto.
Qed.

Lemma audioMeta_of_not_recording (a : AudioState) (now : Z) :
  isRecording a = false -> audioMeta_of a now = None.
Proof. unfold audioMeta_of. intros ->. reflexivity. Qed.

(** The only way a create-block invoke tagged with the next request number
    appears is [handleCreateBlock] issuing it, with the metadata computed
    then. *)
Lemma enter_issue (w : World) (content : string) (q : CreateBlockRequest)
  (m : option AudioMeta) :
  Inv w -> OInvoke (CmdCreateBlock (next_req w) q m) ∈ out (step w (EvEnter content)) ->
  step w (EvEnter content) = issue (CmdCreateBlock (next_req w) q m) w /\
  m = audioMeta_of (audioState (app w)) (wall w).
Proof.
  intros HI H.
  assert (Hnot : OInvoke (CmdCreateBlock (next_req w) q m) ∉ out w)
    by (intros Hin; pose proof (inv_req_out _ HI _ _ Hin eq_refl); simpl in *; lia).
  simpl in H |- *. destruct (trim_nonempty content); [|contradiction].
  destruct (currentPage (app w)) as [page|]; [|contradiction].
  destruct (tauri w).
  - unfold issue in H; simpl in H. apply elem_of_app in H as [H|H]; [contradiction|].
    apply list_elem_of_singleton in H. injection H; intros; subst. split; reflexivity.
  - destruct (createBlock false (Err "") (app w)) as [s r]. simpl in H.
    apply elem_of_app in H as [H|H]; [contradiction|].
    apply list_elem_of_singleton in H. destruct r; discriminate.
Qed.

Lemma Track_start (w : World) (q : CreateBlockRequest) (m : option AudioMeta) :
  Inv w -> Track (next_req w) q m (issue (CmdCreateBlock (next_req w) q m) w).
Proof.
  intros HI. unfold issue. split; simpl.
  - lia.
  - intros c Hc Hk. apply elem_of_app in Hc as [Hc|Hc].
    + pose proof (inv_req_pending _ HI c Hc). lia.
    + apply list_elem_of_singleton in Hc. exact Hc.
  - intros b r t Hb. apply elem_of_app in Hb as [Hb|Hb].
    + pose proof (inv_req_out _ HI _ _ Hb eq_refl). lia.
    + apply list_elem_of_singleton in Hb. discriminate.
  - intros _ b Hb. apply elem_of_app in Hb as [Hb|Hb].
    + pose proof (inv_req_out _ HI _ _ Hb eq_refl). lia.
    + apply list_elem_of_singleton in Hb. discriminate.
Qed.

Lemma Track_after_enter (tf : bool) (es0 : list Event) (content : string)
  (q : CreateBlockRequest) (m : option AudioMeta) (es : list Event) :
  let w := run (init tf) es0 in
  OInvoke (CmdCreateBlock (next_req w) q m) ∈ out (step w (EvEnter content)) ->
  m = audioMeta_of (audioState (app w)) (wall w) /\
  Track (next_req w) q m (run (step w (EvEnter content)) es).
Proof.
  intros w H. pose proof (Inv_reachable tf es0) as HI. fold w in HI.
  destruct (enter_issue w content q m HI H) as [Heq Hm]. split; [exact Hm|].
  rewrite Heq. apply Track_run.
  - apply Inv_issue; [exact HI|reflexivity].
  - apply Track_start, HI.
Qed.

Lemma nodup_not_last (L1 L2 L3 l : list string) (x y : string) :
  NoDup (L1 ++ x :: L2 ++ y :: L3) -> L1 ++ x :: L2 ++ y :: L3 = l ++ [x] -> False.
Proof.
  intros Hnd Heq.
  destruct (exists_last (l := L2 ++ y :: L3)) as [rest [z Hz]].
  { destruct L2; discriminate. }
  rewrite Hz in Heq, Hnd.
  rewrite app_comm_cons, app_assoc in Heq. apply app_inj_tail in Heq as [_ ->].
  apply NoDup_app in Hnd as (_ & _ & Hnd). apply NoDup_cons in Hnd as [Hx _].
  apply Hx. apply elem_of_app. right. apply list_elem_of_singleton. reflexivity.
Qed.

(** C2: the offset of a block created while recording is computed when the
    user's Enter is handled, synchronously and before the [create_block]
    invoke is issued ([m] is what [audioMeta_of] gives on the state and the
    clock of that moment); whatever happens until the backend answers (time
    elapsing, other requests), each binding the request writes carries exactly
    that offset, and [loadBinding] on the block answers it. *)
Theorem offset_read_at_enter (tf : bool) (es0 : list Event) (content : string)
  (q : CreateBlockRequest) (m : option AudioMeta) :
  let w := run (init tf) es0 in
  OInvoke (CmdCreateBlock (next_req w) q m) ∈ out (step w (EvEnter content)) ->
  m = audioMeta_of (audioState (app w)) (wall w) /\
  forall es b r t,
    OBound (next_req w) b r t ∈ out (run (step w (EvEnter content)) es) ->
    m = Some (mkAudioMeta r t) /\ stored (db (run (step w (EvEnter content)) es)) b r t.
Proof.
  intros w H. split.
  - exact (proj1 (Track_after_enter tf es0 content q m [] H)).
  - intros es b r t Hb.
    destruct (Track_after_enter tf es0 content q m es H) as [_ HT].
    exact (tr_bound _ _ _ _ HT b r t Hb).
Qed.

Lemma offset_read_at_enter_witness :
  Some (mkAudioMeta "0" 2) =
  audioMeta_of (audioState (app (run (init true) es_rec))) (wall (run (init true) es_rec)).
Proof.
  exact (proj1 (offset_read_at_enter true es_rec "B1" q_B1 (Some (mkAudioMeta "0" 2))
                  ltac:(in_trace))).
Defined.

(** C4: a block created while the store is not recording is created without
    audio metadata, and whatever runs afterwards, [loadBinding] on it answers
    nothing. *)
Theorem unrecorded_block_never_bound (tf : bool) (es0 : list Event) (content : string)
  (q : CreateBlockRequest) (m : option AudioMeta) :
  let w := run (init tf) es0 in
  isRecording (audioState (app w)) = false ->
  OInvoke (CmdCreateBlock (next_req w) q m) ∈ out (step w (EvEnter content)) ->
  m = None /\
  forall es b, OCreated (next_req w) b ∈ out (run (step w (EvEnter content)) es) ->
    load_binding (db (run (step w (EvEnter content)) es)) b = None.
Proof.
  intros w Hr H.
  assert (Hm : m = None)
    by (rewrite (proj1 (Track_after_enter tf es0 content q m [] H));
        apply audioMeta_of_not_recording, Hr).
  split; [exact Hm|]. intros es b Hb.
  destruct (Track_after_enter tf es0 content q m es H) as [_ HT].
  exact (tr_unbound _ _ _ _ HT Hm b Hb).
Qed.

Lemma unrecorded_block_never_bound_witness :
  load_binding (db (run (step (run (init true) []) (EvEnter "B1")) [EvResolve 0])) "0" = None.
Proof.
  exact (proj2 (unrecorded_block_never_bound true [] "B1" q_B1 None
                  ltac:(reflexivity) ltac:(in_trace)) [EvResolve 0] "0" ltac:(in_trace)).
Defined.

(** C5: once a recording [r1] has been started and, later, another one
    [r2], a block created from then on is never bound to [r1]: each binding
    it gets is to the recording the store held at the moment of its
    creation. *)
Theorem no_cross_session_binding (tf : bool) (es0 : list Event) (l1 l2 l3 : list Out)
  (k1 k2 : nat) (r1 r2 : string) (content : string) (q : CreateBlockRequest)
  (m : option AudioMeta) :
  let w := run (init tf) es0 in
  out w = l1 ++ OStarted k1 r1 :: l2 ++ OStarted k2 r2 :: l3 ->
  OInvoke (CmdCreateBlock (next_req w) q m) ∈ out (step w (EvEnter content)) ->
  forall es b r t,
    OBound (next_req w) b r t ∈ out (run (step w (EvEnter content)) es) ->
    r <> r1 /\ recordingId (audioState (app w)) = Some r /\
    stored (db (run (step w (EvEnter content)) es)) b r t.
Proof.
  intros w Hout H es b r t Hb.
  pose proof (Inv_reachable tf es0) as HI. fold w in HI.
  destruct (Track_after_enter tf es0 content q m es H) as [Hm HT].
  destruct (tr_bound _ _ _ _ HT b r t Hb) as [Hm' Hst].
  rewrite Hm' in Hm. symmetry in Hm.
  apply audioMeta_of_some in Hm as (_ & Hrid & _). simpl in Hrid.
  split; [|split; [exact Hrid|exact Hst]].
  intros ->. destruct (inv_current _ HI r1 Hrid) as [l Hl].
  pose proof (inv_started_nodup _ HI) as Hnd.
  rewrite Hout in Hl, Hnd. rewrite !started_rids_app in Hl, Hnd. simpl in Hl, Hnd.
  rewrite started_rids_app in Hl, Hnd. simpl in Hl, Hnd.
  exact (nodup_not_last _ _ _ _ _ _ Hnd Hl).
Qed.

Lemma no_cross_session_binding_witness : "1" <> "0".
Proof.
  exact (proj1 (no_cross_session_binding true es_restart
    [OInvoke (CmdStartRecording 0 "daily")]
    [OSettled AStartRecording None; OInvoke (CmdStopRecording 1 "0"); OPersisted 1 "0";
     OSettled AStopRecording None; OInvoke (CmdStartRecording 2 "daily")]
    [OSettled AStartRecording None] 0 2 "0" "1" "B1" q_B1 (Some (mkAudioMeta "1" 1))
    ltac:(vm_compute; reflexivity) ltac:(in_trace) [EvResolve 0] "2" "1" 1 ltac:(in_trace))).
Defined.

(** C1 (as the code has it): the offset is computed from the wall clock.
    When [handleCreateBlock] issues a create-block invoke with audio
    metadata, the offset is [Math.floor((Date.now() - startTime) / 1000)] of
    that moment, and [startTime] is itself the [Date.now()] of the moment the
    [start_recording] invoke answered; neither reading is monotonic. *)
Theorem offset_from_wall_clock (tf : bool) (es0 : list Event) (content : string)
  (q : CreateBlockRequest) (meta : AudioMeta) :
  let w := run (init tf) es0 in
  OInvoke (CmdCreateBlock (next_req w) q (Some meta)) ∈ out (step w (EvEnter content)) ->
  recordingId (audioState (app w)) = Some (recording_id meta) /\
  (exists st, startTime (audioState (app w)) = Some st /\
              timestamp meta = (wall w - st) / 1000) /\
  (forall w' n k pid d os r,
     pending w' !! n = Some (CmdStartRecording k pid) ->
     backend_start_recording (db w') (wall w') (mono w') k pid = (d, os, Ok r) ->
     recordingId (audioState (app (step w' (EvResolve n)))) = Some r /\
     startTime (audioState (app (step w' (EvResolve n)))) = Some (wall w')).
Proof.
  intros w H. pose proof (Inv_reachable tf es0) as HI. fold w in HI.
  destruct (enter_issue w content q (Some meta) HI H) as [_ Hm]. symmetry in Hm.
  apply audioMeta_of_some in Hm as (_ & Hrid & st & Hst & Ht).
  split; [exact Hrid|]. split; [exists st; split; [exact Hst|exact Ht]|].
  intros w' n k pid d os r Hp Hb. simpl. rewrite Hp. unfold resolve. rewrite Hb.
  simpl. split; reflexivity.
Qed.

Lemma offset_from_wall_clock_witness :
  recordingId (audioState (app (run (init true) es_rec))) = Some "0".
Proof.
  exact (proj1 (offset_from_wall_clock true es_rec "B1" q_B1 (mkAudioMeta "0" 2)
                  ltac:(in_trace))).
Defined.

(** C8: when the block is inserted but its binding is refused, the block is
    still appended to the store's block list, no error is set, the action
    settles without error, and the failure is only reported. *)
Theorem binding_failure_not_propagated (w : World) (n k : nat) (q : CreateBlockRequest)
  (meta : AudioMeta) (d1 : Db) (b : Block) (e : string) :
  pending w !! n = Some (CmdCreateBlock k q (Some meta)) ->
  insert_block (db w) (wall w) q = Ok (d1, b) ->
  insert_audio_timestamp d1 (b_id b) (recording_id meta) (timestamp meta) = Err e ->
  let w' := step w (EvResolve n) in
  blocks (app w') = blocks (app w) ++ [b] /\ error (app w') = error (app w) /\
  out w' = out w ++ [OCreated k (b_id b); OBindFailed k e; OSettled ACreateBlock None] /\
  block_exists (db w') (b_id b) = true.
Proof.
  intros Hp Hb Ht w'. subst w'. simpl. rewrite Hp. unfold resolve, backend_create_block.
  rewrite Hb, Ht. simpl. split; [reflexivity|]. split; [reflexivity|].
  split; [reflexivity|].
  apply insert_block_spec in Hb as (Hb1 & _). apply block_exists_spec.
  exists b. rewrite Hb1. split; [|reflexivity]. apply elem_of_app. right. set_solver.
Qed.

Lemma binding_failure_not_propagated_witness :
  blocks (app (step w_ghost (EvResolve 0))) = blocks (app w_ghost) ++ [ghost_block].
Proof.
  exact (proj1 (binding_failure_not_propagated w_ghost 0 0 q_B1 (mkAudioMeta "ghost" 3)
                  ghost_db ghost_block "violates foreign key constraint fk_recording"
                  ltac:(reflexivity) ltac:(vm_compute; reflexivity)
                  ltac:(vm_compute; reflexivity))).
Defined.

(* ------------------------------------------------------------------ *)
(** ** Offsets along a session *)

Lemma rid_sorted_snoc (l : list AudioMeta) (m : AudioMeta) :
  rid_sorted l ->
  (forall x, x ∈ l -> recording_id x = recording_id m -> timestamp x <= timestamp m) ->
  rid_sorted (l ++ [m]).
Proof.
  induction l as [|x l IH]; simpl; intros Hs Hle.
  - split; [constructor|exact I].
  - destruct Hs as [Hf Hs]. split.
    + apply Forall_app. split; [exact Hf|]. apply Forall_singleton. intros Heq.
      apply Hle; [set_solver|symmetry; exact Heq].
    + apply IH; [exact Hs|]. intros y Hy. apply Hle. set_solver.
Qed.

Lemma offset_of_mono (now now' st : Z) : now <= now' -> offset_of now st <= offset_of now' st.
Proof. intros H. unfold offset_of. apply Z.div_le_mono; lia. Qed.

Lemma createBlock_audio (tf : bool) (res : Result Block) (s : AppState) :
  audioState (fst (createBlock tf res s)) = audioState s.
Proof. destruct tf; [destruct res|]; reflexivity. Qed.

Lemma create_metas_settle {A} (a : Action) (r : Result A) : create_metas [settle a r] = [].
Proof. destruct r; reflexivity. Qed.

(** What answering an invoke does to the offsets and the recording held. *)
Lemma resolve_audio (c : Cmd) (rest : list Cmd) (w : World) :
  let w' := resolve c rest w in
  create_metas (out w') = create_metas (out w) /\ (exists os, out w' = out w ++ os) /\
  wall w' = wall w /\
  ((recordingId (audioState (app w')) = recordingId (audioState (app w)) /\
    startTime (audioState (app w')) = startTime (audioState (app w))) \/
   recordingId (audioState (app w')) = None \/
   recordingId (audioState (app w')) = Some (uuid (db_next_uuid (db w)))).
Proof.
  destruct c as [k q m|k pid|k rid]; unfold resolve.
  - destruct (backend_create_block (db w) (wall w) k q m) as [[d os] res] eqn:E.
    destruct (createBlock true res (app w)) as [s r] eqn:Ec. simpl.
    pose proof (createBlock_audio true res (app w)) as Ha. rewrite Ec in Ha. simpl in Ha.
    rewrite Ha. split; [|split; [eauto|split; [reflexivity|left; auto]]].
    rewrite !create_metas_app, create_metas_settle.
    apply backend_create_block_spec in E
      as [[_ ->]|[b [d1 [_ [[_ [_ ->]]|[[meta [e [_ [_ ->]]]]|[meta [row [_ [_ ->]]]]]]]]]];
      simpl; rewrite ?app_nil_r; reflexivity.
  - destruct (backend_start_recording (db w) (wall w) (mono w) k pid) as [[d os] res] eqn:E.
    apply backend_start_recording_spec in E
      as [[_ [-> [e ->]]]|[-> [-> _]]]; simpl.
    + split; [rewrite !create_metas_app; simpl; rewrite app_nil_r; reflexivity|].
      split; [eauto|]. split; [reflexivity|]. left. auto.
    + split; [rewrite !create_metas_app; simpl; rewrite app_nil_r; reflexivity|].
      split; [eauto|]. split; [reflexivity|]. right. right. reflexivity.
  - destruct (backend_stop_recording (db w) (mono w) k rid) as [[d os] res] eqn:E.
    apply backend_stop_recording_spec in E as (_ & _ & _ & Hos).
    destruct res as [u|e]; simpl.
    + split; [destruct Hos as [-> | ->]; rewrite !create_metas_app; simpl;
              rewrite ?app_nil_r; reflexivity|].
      split; [eauto|]. split; [reflexivity|]. right. left. reflexivity.
    + split; [destruct Hos as [-> | ->]; rewrite !create_metas_app; simpl;
              rewrite ?app_nil_r; reflexivity|].
      split; [eauto|]. split; [reflexivity|]. left. auto.
Qed.

Lemma MonoInv_frame (w w' : World) :
  MonoInv w -> create_metas (out w') = create_metas (out w) ->
  (exists os, out w' = out w ++ os) -> wall w <= wall w' ->
  ((recordingId (audioState (app w')) = recordingId (audioState (app w)) /\
    startTime (audioState (app w')) = startTime (audioState (app w))) \/
   recordingId (audioState (app w')) = None \/
   exists r, recordingId (audioState (app w')) = Some r /\
             forall meta, meta ∈ create_metas (out w) -> recording_id meta <> r) ->
  MonoInv w'.
Proof.
  intros [M1 M2 M3] Hm [os Ho] Hw Ha. split; rewrite Hm.
  - exact M1.
  - intros meta Hx. rewrite Ho, started_rids_app. apply elem_of_app. left. auto.
  - intros r st Hr Hst meta Hx Hrm.
    destruct Ha as [[Hr' Hst']|[Hn|[r' [Hr' Hf]]]].
    + rewrite Hr' in Hr. rewrite Hst' in Hst.
      etrans; [apply (M3 r st Hr Hst meta Hx Hrm)|]. apply offset_of_mono, Hw.
    + congruence.
    + rewrite Hr' in Hr. injection Hr as ->. exfalso. exact (Hf meta Hx Hrm).
Qed.

Lemma MonoInv_enter (w : World) (q : CreateBlockRequest) :
  Inv w -> MonoInv w ->
  MonoInv (issue (CmdCreateBlock (next_req w) q (audioMeta_of (audioState (app w)) (wall w))) w).
Proof.
  intros HI HM. destruct (audioMeta_of (audioState (app w)) (wall w)) as [meta|] eqn:Hm.
  - apply audioMeta_of_some in Hm as (_ & Hrid & st & Hst & Ht).
    destruct HM as [M1 M2 M3]. unfold issue. split; simpl; rewrite create_metas_app; simpl.
    + apply rid_sorted_snoc; [exact M1|]. intros x Hx Heq. rewrite Ht.
      exact (M3 _ st Hrid Hst x Hx Heq).
    + intros x Hx. rewrite started_rids_app. apply elem_of_app. left.
      apply elem_of_app in Hx as [Hx|Hx]; [auto|].
      apply list_elem_of_singleton in Hx. subst x.
      destruct (inv_current _ HI _ Hrid) as [l ->]. apply elem_of_app. right. set_solver.
    + intros r st' Hr Hst' x Hx Heq. rewrite Hrid in Hr. injection Hr as <-.
      rewrite Hst in Hst'. injection Hst' as <-.
      apply elem_of_app in Hx as [Hx|Hx]; [exact (M3 _ st Hrid Hst x Hx Heq)|].
      apply list_elem_of_singleton in Hx. subst x. lia.
  - apply (MonoInv_frame w _ HM); simpl.
    + rewrite create_metas_app. simpl. apply app_nil_r.
    + eauto.
    + lia.
    + left. auto.
Qed.

Lemma MonoInv_step (w : World) (e : Event) :
  Inv w -> MonoInv w -> wall_ok w e -> MonoInv (step w e).
Proof.
  intros HI HM Hok. destruct e as [d|t|content|pid| |n]; simpl in Hok |- *.
  - apply (MonoInv_frame w _ HM); simpl; [reflexivity|exists []; rewrite app_nil_r; reflexivity|lia|left; auto].
  - apply (MonoInv_frame w _ HM); simpl; [reflexivity|exists []; rewrite app_nil_r; reflexivity|lia|left; auto].
  - destruct (trim_nonempty content); [|exact HM].
    destruct (currentPage (app w)) as [page|]; [|exact HM].
    destruct (tauri w); [apply MonoInv_enter; assumption|].
    pose proof (createBlock_audio false (Err "") (app w)) as Ha.
    destruct (createBlock false (Err "") (app w)) as [s r]. simpl in Ha.
    apply (MonoInv_frame w _ HM); simpl.
    + rewrite create_metas_app, create_metas_settle. apply app_nil_r.
    + eauto.
    + lia.
    + left. rewrite ?Ha. auto.
  - destruct (tauri w).
    + apply (MonoInv_frame w _ HM); simpl.
      * rewrite create_metas_app. apply app_nil_r.
      * eauto.
      * lia.
      * left. auto.
    + apply (MonoInv_frame w _ HM); simpl.
      * rewrite create_metas_app. apply app_nil_r.
      * eauto.
      * lia.
      * left. auto.
  - destruct (truthy_str (recordingId (audioState (app w)))).
    + destruct (recordingId (audioState (app w))) as [r|] eqn:Hr; [|exact HM].
      destruct (tauri w).
      * apply (MonoInv_frame w _ HM); simpl.
        -- rewrite create_metas_app. apply app_nil_r.
        -- eauto.
        -- lia.
        -- left. auto.
      * apply (MonoInv_frame w _ HM); simpl.
        -- rewrite create_metas_app. apply app_nil_r.
        -- eauto.
        -- lia.
        -- right. left. reflexivity.
    + apply (MonoInv_frame w _ HM); simpl.
      * rewrite create_metas_app. apply app_nil_r.
      * eauto.
      * lia.
      * left. auto.
  - destruct (pending w !! n) as [c|] eqn:Hc; [|exact HM].
    destruct (resolve_audio c (delete n (pending w)) w) as (Hm & Hos & Hw & Ha).
    apply (MonoInv_frame w _ HM Hm Hos); [lia|].
    destruct Ha as [Ha|[Ha|Ha]]; [left; exact Ha|right; left; exact Ha|].
    right. right. exists (uuid (db_next_uuid (db w))). split; [exact Ha|].
    intros meta Hx Heq. apply (issued_fresh (db w) (recording_id meta)); [|exact Heq].
    apply (inv_started _ HI), (mi_started _ HM _ Hx).
Qed.

Lemma MonoInv_run (w : World) (es : list Event) :
  Inv w -> MonoInv w -> wall_never_decreases w es = true -> MonoInv (run w es).
Proof.
  revert w. induction es as [|e es IH]; intros w HI HM Hwall; [exact HM|].
  simpl in Hwall. apply andb_prop in Hwall as [He Hwall].
  apply IH; [apply Inv_step, HI| |exact Hwall].
  apply MonoInv_step; [exact HI|exact HM|].
  destruct e; simpl; auto. apply Z.leb_le, He.
Qed.

Lemma MonoInv_init (tf : bool) : MonoInv (init tf).
Proof. split; simpl; [exact I|intros ? Hx; set_solver|discriminate]. Qed.

(** C3 (as the code has it): as long as the wall clock is never set back,
    the offsets sent with the create-block invokes are, in the order of the
    invokes, non-decreasing for each recording (equal offsets allowed). *)
Theorem offsets_sorted_when_wall_monotone (tf : bool) (es : list Event) :
  wall_never_decreases (init tf) es = true ->
  rid_sorted (create_metas (out (run (init tf) es))).
Proof.
  intros H. apply (mi_sorted _ (MonoInv_run (init tf) es (Inv_init tf) (MonoInv_init tf) H)).
Qed.

Lemma offsets_sorted_when_wall_monotone_witness :
  rid_sorted (create_metas (out (run (init true) scenario1))).
Proof.
  exact (offsets_sorted_when_wall_monotone true scenario1 ltac:(vm_compute; reflexivity)).
Defined.

(** * Properties of the other functions *)

(* ------------------------------------------------------------------ *)
(** ** Strings and decimal digits *)

Lemma string_app_cons (c : ascii) (a b : string) : String c a +:+ b = String c (a +:+ b).
Proof. reflexivity. Qed.

Lemma string_app_nil_r (s : string) : s +:+ EmptyString = s.
Proof. induction s as [|c s IH]; [reflexivity|now rewrite string_app_cons, IH]. Qed.

Lemma string_app_assoc (a b c : string) : (a +:+ b) +:+ c = a +:+ (b +:+ c).
Proof. induction a as [|x a IH]; [reflexivity|now rewrite !string_app_cons, IH]. Qed.

Lemma string_length_app (a b : string) :
  String.length (a +:+ b) = (String.length a + String.length b)%nat.
Proof. induction a as [|x a IH]; [reflexivity|rewrite string_app_cons; simpl; now rewrite IH]. Qed.

Lemma digit_val_char (x : N) : (x < 10)%N -> digit_val (pretty_N_char x) = Some x.
Proof.
  intros Hx.
  assert (x = 0 \/ x = 1 \/ x = 2 \/ x = 3 \/ x = 4 \/ x = 5 \/ x = 6 \/ x = 7
          \/ x = 8 \/ x = 9)%N as Hc by lia.
  destruct_or! Hc; subst x; reflexivity.
Qed.

Lemma read_digits_go (x : N) :
  exists p, forall s acc, read_digits acc (pretty_N_go x s) = read_digits (acc * p + x)%N s.
Proof.
  induction (N.lt_wf_0 x) as [x _ IH].
  destruct (decide (x = 0%N)) as [->|Hx].
  - exists 1%N. intros s acc. rewrite pretty_N_go_0. f_equal. lia.
  - destruct (IH (x `div` 10)%N) as [p Hp]; [apply N.div_lt; lia|].
    exists (10 * p)%N. intros s acc.
    rewrite pretty_N_go_step by lia. rewrite Hp. cbn [read_digits].
    rewrite digit_val_char by (apply N.mod_lt; lia).
    f_equal. pose proof (N.div_mod x 10 ltac:(lia)). lia.
Qed.

Lemma pretty_N_go_app (x : N) (s : string) : pretty_N_go x s = pretty_N_go x EmptyString +:+ s.
Proof.
  revert s. induction (N.lt_wf_0 x) as [x _ IH]; intros s.
  destruct (decide (x = 0%N)) as [->|Hx]; [reflexivity|].
  rewrite !(pretty_N_go_step x) by lia.
  rewrite (IH (x `div` 10)%N ltac:(apply N.div_lt; lia) (String _ s)).
  rewrite (IH (x `div` 10)%N ltac:(apply N.div_lt; lia) (String _ EmptyString)).
  rewrite string_app_assoc. reflexivity.
Qed.

Lemma read_digits_pretty (x : N) (s : string) :
  read_digits 0 (pretty x +:+ s) = read_digits x s.
Proof.
  unfold pretty, pretty_N. destruct (decide (x = 0%N)) as [->|Hx]; [reflexivity|].
  rewrite <- pretty_N_go_app. destruct (read_digits_go x) as [p Hp].
  rewrite Hp. reflexivity.
Qed.

Lemma read_digits_pad (y s : string) :
  read_digits 0 (padStart2 y +:+ s) = read_digits 0 (y +:+ s).
Proof. unfold padStart2. destruct y as [|c [|c' y]]; reflexivity. Qed.

Lemma pretty_Z_nonneg (z : Z) : 0 <= z -> pretty z = pretty (Z.to_N z).
Proof. destruct z; intros; [reflexivity|reflexivity|lia]. Qed.

Lemma pretty_pos_nonempty (p : positive) : pretty (Npos p) <> EmptyString.
Proof.
  unfold pretty, pretty_N. destruct (decide (N.pos p = 0%N)); [discriminate|].
  rewrite pretty_N_go_step by lia. rewrite pretty_N_go_app.
  destruct (pretty_N_go _ EmptyString); discriminate.
Qed.

Lemma read_digits_colon (acc : N) (t : string) :
  read_digits acc (String ":" t) = (acc, String ":" t).
Proof. reflexivity. Qed.

Lemma parse_clock_of (x : string) (m sec : Z) :
  0 <= m -> 0 <= sec < 60 ->
  (forall s, read_digits 0 (x +:+ s) = read_digits (Z.to_N m) s) ->
  parse_clock (x +:+ ":" +:+ padStart2 (pretty sec)) = Some (60 * m + sec).
Proof.
  intros Hm Hs Hx. unfold parse_clock. rewrite Hx.
  change (":" +:+ ?t) with (String ":" t). rewrite read_digits_colon.
  cbv beta iota. change (Ascii.eqb ":" ":") with true. cbv beta iota.
  rewrite <- (string_app_nil_r (padStart2 (pretty sec))).
  rewrite read_digits_pad, pretty_Z_nonneg by lia. rewrite read_digits_pretty.
  cbn [read_digits].
  assert (Hlt : (Z.to_N sec <? 60)%N = true) by (apply N.ltb_lt; lia).
  rewrite Hlt. f_equal. rewrite !Z2N.id by lia. reflexivity.
Qed.

(** The recording timer reads back as the elapsed whole seconds, as
    minutes, [:], and seconds below 60, whenever the elapsed time is not
    negative. *)
Theorem formatRecordingTime_reads_elapsed (a : AudioState) (now st : Z) :
  startTime a = Some st -> st <> 0 -> 0 <= offset_of now st ->
  parse_clock (formatRecordingTime a now) = Some (offset_of now st).
Proof.
  intros Hst Hnz He. unfold formatRecordingTime. rewrite Hst. simpl truthy_num.
  destruct (Z.eqb_spec st 0) as [|_]; [contradiction|]. simpl negb. cbv iota.
  cbv zeta. set (e := offset_of now st) in *.
  rewrite (Z.rem_mod_nonneg e 60) by lia.
  rewrite (parse_clock_of _ (e / 60) (e mod 60)).
  - rewrite <- Z.div_mod by lia. reflexivity.
  - apply Z.div_pos; lia.
  - apply Z.mod_pos_bound; lia.
  - intros s. rewrite read_digits_pad.
    rewrite pretty_Z_nonneg by (apply Z.div_pos; lia). apply read_digits_pretty.
Qed.

(** When the wall clock is behind the start time the timer shows a
    negative time (its text starts with [-]). *)
Theorem formatRecordingTime_negative (a : AudioState) (now st : Z) :
  startTime a = Some st -> st <> 0 -> offset_of now st < 0 ->
  exists rest, formatRecordingTime a now = String "-" rest.
Proof.
  intros Hst Hnz He. unfold formatRecordingTime. rewrite Hst. simpl truthy_num.
  destruct (Z.eqb_spec st 0) as [|_]; [contradiction|]. simpl negb. cbv iota.
  cbv zeta. assert (Hm : offset_of now st / 60 < 0) by (apply Z.div_lt_upper_bound; lia).
  destruct (offset_of now st / 60) as [|p|p]; try lia.
  change (pretty (Z.neg p)) with (String "-" (pretty (N.pos p))).
  pose proof (pretty_pos_nonempty p) as Hne.
  destruct (pretty (N.pos p)) as [|c t]; [contradiction|].
  eexists. reflexivity.
Qed.

(** The audio indicator of a block reads back as its timestamp in seconds,
    as minutes, [:], and two-digit seconds below 60. *)
Theorem timestamp_label_reads_seconds (ts : AudioTimestamp) :
  0 <= ts_timestamp_seconds ts ->
  parse_clock (timestamp_label ts) = Some (ts_timestamp_seconds ts).
Proof.
  intros H. unfold timestamp_label. set (t := ts_timestamp_seconds ts) in *.
  rewrite (Z.rem_mod_nonneg t 60) by lia.
  rewrite (parse_clock_of _ (t / 60) (t mod 60)).
  - rewrite <- Z.div_mod by lia. reflexivity.
  - apply Z.div_pos; lia.
  - apply Z.mod_pos_bound; lia.
  - intros s. rewrite pretty_Z_nonneg by (apply Z.div_pos; lia). apply read_digits_pretty.
Qed.

(* ------------------------------------------------------------------ *)
(** ** Page links *)

Lemma run_no_bracket_spec (s : string) :
  let '(r, t) := run_no_bracket s in
  s = r +:+ t /\ (forall c, In c (String.list_ascii_of_string r) -> c <> "]"%char) /\
  (t = EmptyString \/ exists t', t = String "]" t').
Proof.
  induction s as [|c s IH]; simpl.
  - split; [reflexivity|split; [intros ? []|left; reflexivity]].
  - destruct (Ascii.eqb_spec c "]") as [->|Hc].
    + split; [reflexivity|split; [intros ? []|right; eexists; reflexivity]].
    + destruct (run_no_bracket s) as [r t]. destruct IH as (-> & Hr & Ht).
      split; [reflexivity|split; [|exact Ht]].
      intros c' [<-|Hin]; [exact Hc|exact (Hr c' Hin)].
Qed.

Lemma match_link_spec (s cap rest : string) :
  match_link s = Some (cap, rest) ->
  s = "[[" +:+ cap +:+ "]]" +:+ rest /\ cap <> EmptyString /\
  (forall c, In c (String.list_ascii_of_string cap) -> c <> "]"%char).
Proof.
  unfold match_link. destruct s as [|a [|b s1]]; try discriminate.
  destruct (Ascii.eqb_spec a "[") as [->|]; [|discriminate].
  destruct (Ascii.eqb_spec b "[") as [->|]; [|discriminate]. simpl andb. cbv iota.
  pose proof (run_no_bracket_spec s1) as Hs.
  destruct (run_no_bracket s1) as [r t]. destruct Hs as (-> & Hr & Ht).
  destruct r as [|x r]; [discriminate|].
  destruct t as [|c [|d t]]; try discriminate.
  destruct (Ascii.eqb_spec c "]") as [->|]; [|discriminate].
  destruct (Ascii.eqb_spec d "]") as [->|]; [|discriminate].
  intros [= <- <-]. split; [reflexivity|split; [discriminate|exact Hr]].
Qed.

Lemma split_links_go_shown (fuel : nat) (cur s : string) :
  (String.length s <= fuel)%nat ->
  concat_strings (map shown (tag_parts false (split_links_go fuel cur s))) = cur +:+ s.
Proof.
  revert cur s. induction fuel as [|n IH]; intros cur s Hlen.
  - destruct s; [|simpl in Hlen; lia]. simpl. now rewrite !string_app_nil_r.
  - simpl. destruct (match_link s) as [[cap rest]|] eqn:Hm.
    + apply match_link_spec in Hm as (-> & _ & _).
      rewrite !string_length_app in Hlen. simpl in Hlen.
      simpl. rewrite IH by lia. change (EmptyString +:+ rest) with rest.
      rewrite !string_app_assoc. reflexivity.
    + destruct s as [|c s'].
      * simpl. reflexivity.
      * simpl in Hlen. rewrite IH by lia.
        rewrite string_app_assoc. reflexivity.
Qed.

Lemma split_links_go_links (fuel : nat) (cur s t : string) :
  In (RLink t) (tag_parts false (split_links_go fuel cur s)) ->
  t <> EmptyString /\ (forall c, In c (String.list_ascii_of_string t) -> c <> "]"%char).
Proof.
  revert cur s. induction fuel as [|n IH]; intros cur s Hin.
  - simpl in Hin. destruct Hin as [[=]|[]].
  - simpl in Hin. destruct (match_link s) as [[cap rest]|] eqn:Hm.
    + apply match_link_spec in Hm as (_ & Hne & Hc).
      simpl in Hin. destruct Hin as [[=]|[[= <-]|Hin]]; [split; assumption|].
      exact (IH _ _ Hin).
    + destruct s as [|c s'].
      * simpl in Hin. destruct Hin as [[=]|[]].
      * exact (IH _ _ Hin).
Qed.

(** [renderContent] shows the content unchanged: its texts and its links,
    written back as [[[title]]], concatenate to the content. *)
Theorem renderContent_shows_content (content : string) :
  concat_strings (map shown (renderContent content)) = content.
Proof.
  unfold renderContent, split_links. rewrite split_links_go_shown by lia. reflexivity.
Qed.

(** Every page link of [renderContent] has a nonempty title that contains no "]". *)
Theorem renderContent_link_titles (content title : string) :
  In (RLink title) (renderContent content) ->
  title <> EmptyString /\
  (forall c, In c (String.list_ascii_of_string title) -> c <> "]"%char).
Proof. apply split_links_go_links. Qed.

Lemma renderContent_link_titles_witness :
  In (RLink "Page A") (renderContent "see [[Page A]] and ]]") /\
  "Page A" <> EmptyString /\
  (forall c, In c (String.list_ascii_of_string "Page A") -> c <> "]"%char).
Proof.
  assert (H : In (RLink "Page A") (renderContent "see [[Page A]] and ]]"))
    by (vm_compute; auto).
  split; [exact H|exact (renderContent_link_titles _ _ H)].
Defined.

Lemma formatRecordingTime_reads_elapsed_witness :
  parse_clock (formatRecordingTime rec_state 62000) = Some (offset_of 62000 1000).
Proof.
  exact (formatRecordingTime_reads_elapsed rec_state 62000 1000 eq_refl
           ltac:(discriminate) ltac:(vm_compute; discriminate)).
Defined.

Lemma formatRecordingTime_negative_witness :
  exists rest, formatRecordingTime rec_state 0 = String "-" rest.
Proof.
  exact (formatRecordingTime_negative rec_state 0 1000 eq_refl
           ltac:(discriminate) ltac:(vm_compute; reflexivity)).
Defined.

Lemma timestamp_label_reads_seconds_witness :
  parse_clock (timestamp_label (mkAudioTimestamp 1 "1" "0" 125 None)) = Some 125.
Proof.
  exact (timestamp_label_reads_seconds (mkAudioTimestamp 1 "1" "0" 125 None)
           ltac:(simpl; lia)).
Defined.

(* ------------------------------------------------------------------ *)
(** ** Store actions *)

(** After [update_block_content] succeeds, every block of the store with the
    id holds the new content and update time, the ids keep their order, the
    other blocks stay, and the current page, the loading flag, the error and
    the audio state are untouched (the current page keeps its old content). *)
Theorem updateBlockContent_ok (blockId content now : string) (v : unit) (s : AppState) :
  let '(s', r) := updateBlockContent_k blockId content now (Ok v) s in
  r = Ok tt /\
  map b_id (blocks s') = map b_id (blocks s) /\
  (forall b, In b (blocks s') -> b_id b = blockId ->
     b_content b = Some content /\ b_updated_at b = now) /\
  (forall b, In b (blocks s) -> b_id b <> blockId -> In b (blocks s')) /\
  currentPage s' = currentPage s /\ isLoading s' = isLoading s /\
  error s' = error s /\ audioState s' = audioState s.
Proof.
  simpl. split; [reflexivity|]. split.
  { rewrite map_map. apply map_ext. intros b.
    destruct (String.eqb_spec (b_id b) blockId); reflexivity. }
  split; [|split; [|repeat split]].
  - intros b' Hin Hid. apply in_map_iff in Hin as (b & <- & _).
    destruct (String.eqb_spec (b_id b) blockId) as [_|Hne]; [split; reflexivity|].
    contradiction.
  - intros b Hin Hne. apply in_map_iff. exists b. split; [|exact Hin].
    destruct (String.eqb_spec (b_id b) blockId); [contradiction|reflexivity].
Qed.

(** After [delete_block] succeeds, the store keeps exactly the blocks with
    another id (the children of the deleted block included), deleting again
    changes nothing, and the current page is untouched even when it is the
    deleted block. *)
Theorem deleteBlock_ok (blockId : string) (v : unit) (s : AppState) :
  let '(s', r) := deleteBlock_k blockId (Ok v) s in
  r = Ok tt /\
  (forall b, In b (blocks s') <-> In b (blocks s) /\ b_id b <> blockId) /\
  fst (deleteBlock_k blockId (Ok v) s') = s' /\
  currentPage s' = currentPage s /\ isLoading s' = isLoading s /\
  error s' = error s /\ audioState s' = audioState s.
Proof.
  simpl. split; [reflexivity|]. split; [|split; [|repeat split]].
  - intros b. rewrite List.filter_In.
    destruct (String.eqb_spec (b_id b) blockId); simpl; intuition congruence.
  - unfold set_blocks. simpl. f_equal.
    induction (blocks s) as [|b l IH]; [reflexivity|]. simpl.
    destruct (String.eqb_spec (b_id b) blockId); simpl; [exact IH|].
    destruct (String.eqb_spec (b_id b) blockId); [contradiction|]. simpl. now rewrite IH.
Qed.

(** A rejected invoke only sets [error] to the backend's message; update,
    delete, start and stop rethrow it, [loadAudioDevices] fulfils. *)
Theorem failed_invoke_sets_error (e blockId content now pid : string) (t : Z)
  (s : AppState) :
  updateBlockContent_k blockId content now (Err e) s = (set_error (Some e) s, Err e) /\
  deleteBlock_k blockId (Err e) s = (set_error (Some e) s, Err e) /\
  startRecording_k pid t (Err e) s = (set_error (Some e) s, Err e) /\
  stopRecording_k (Err e) s = (set_error (Some e) s, Err e) /\
  loadAudioDevices_k (Err e) s = (set_error (Some e) s, Ok tt).
Proof. repeat split. Qed.

Lemma find_first {A} (f : A -> bool) (l : list A) (x : A) :
  List.find f l = Some x ->
  f x = true /\ exists l1 l2, l = l1 ++ x :: l2 /\ forall y, In y l1 -> f y = false.
Proof.
  induction l as [|a l IH]; simpl; [discriminate|].
  destruct (f a) eqn:Ha.
  - intros [= <-]. split; [exact Ha|]. exists [], l. split; [reflexivity|intros ? []].
  - intros H. destruct (IH H) as (Hx & l1 & l2 & -> & Hl1). split; [exact Hx|].
    exists (a :: l1), l2. split; [reflexivity|].
    intros y [<-|Hy]; [exact Ha|exact (Hl1 y Hy)].
Qed.

(** [loadDailyNote] always ends with [isLoading] false.  On success the store
    shows the answered blocks, the error is cleared and the current page is
    the first page block of the answer (none if the answer has no page); on
    failure the blocks and the current page stay and the error is the
    backend's message; without Tauri the store is emptied. *)
Theorem loadDailyNote_result (tf : bool) (res : Result (list Block)) (s : AppState) :
  let s' := loadDailyNote tf res s in
  isLoading s' = false /\ audioState s' = audioState s /\
  match tf, res with
  | true, Ok bs =>
      blocks s' = bs /\ error s' = None /\
      (forall p, currentPage s' = Some p ->
         b_is_page p = true /\
         exists l1 l2, bs = l1 ++ p :: l2 /\ forall b, In b l1 -> b_is_page b = false) /\
      (currentPage s' = None -> forall b, In b bs -> b_is_page b = false)
  | true, Err e => blocks s' = blocks s /\ currentPage s' = currentPage s /\ error s' = Some e
  | false, _ => blocks s' = [] /\ currentPage s' = None /\ error s' = None
  end.
Proof.
  destruct tf; [destruct res as [bs|e]|]; simpl; repeat split; try reflexivity.
  - exact (proj1 (find_first _ _ _ H)).
  - exact (proj2 (find_first _ _ _ H)).
  - intros Hn b Hb. exact (List.find_none _ _ Hn b Hb).
Qed.

(** [loadPage] never rejects and always ends with [isLoading] false, even
    when creating the missing page fails; the error it leaves is either
    cleared or the message of one of the invokes it awaited. *)
Theorem loadPage_settles (tf : bool) (title : string) (found : Result (option Block))
  (children : Result (list Block)) (created : Result Block) (s : AppState) :
  let '(s', r) := loadPage tf title found children created s in
  r = Ok tt /\ isLoading s' = false /\ audioState s' = audioState s /\
  (error s' = None \/
   exists e, error s' = Some e /\ (found = Err e \/ children = Err e \/ created = Err e)).
Proof.
  destruct tf; [|simpl; repeat split; left; reflexivity].
  destruct found as [[p|]|e].
  - destruct children as [ch|e]; simpl; repeat split; [left; reflexivity|].
    right. exists e. split; [reflexivity|]. right; left; reflexivity.
  - destruct created as [np|e]; simpl; repeat split; [left; reflexivity|].
    right. exists e. split; [reflexivity|]. right; right; reflexivity.
  - simpl. repeat split. right. exists e. split; [reflexivity|]. left; reflexivity.
Qed.

(** [loadPage] of an existing page shows the page followed by its children;
    of a missing page, the created page alone; both make it the current page
    and clear the error. *)
Theorem loadPage_opens_page (title : string) (p np : Block) (ch : list Block)
  (children : Result (list Block)) (created : Result Block) (s : AppState) :
  let s1 := fst (loadPage true title (Ok (Some p)) (Ok ch) created s) in
  let s2 := fst (loadPage true title (Ok None) children (Ok np) s) in
  blocks s1 = p :: ch /\ currentPage s1 = Some p /\ error s1 = None /\
  blocks s2 = [np] /\ currentPage s2 = Some np /\ error s2 = None.
Proof. repeat split. Qed.

(** A [createBlock] answer that arrives after [loadPage] showed a page is
    appended to that page's block list, whatever the parent of the new block. *)
Theorem created_block_joins_shown_page (p nb : Block) (ch : list Block) (s : AppState) :
  let s1 := loadPage_children_k p (Ok ch) s in
  let '(s2, r) := createBlock true (Ok nb) s1 in
  r = Ok nb /\ currentPage s2 = Some p /\ blocks s2 = p :: ch ++ [nb].
Proof. repeat split. Qed.

(** [loadAudioDevices] never rejects and never touches the blocks, the
    current page or the recording session; it replaces the device list on
    success, keeps it on failure and empties it without Tauri. *)
Theorem loadAudioDevices_keeps_session (tf : bool) (res : Result (list AudioDevice))
  (s : AppState) :
  let '(s', r) := if tf then loadAudioDevices_k res s else loadAudioDevices_notauri s in
  r = Ok tt /\ blocks s' = blocks s /\ currentPage s' = currentPage s /\
  isRecording (audioState s') = isRecording (audioState s) /\
  recordingId (audioState s') = recordingId (audioState s) /\
  pageId (audioState s') = pageId (audioState s) /\
  startTime (audioState s') = startTime (audioState s) /\
  devices (audioState s') =
    match tf, res with
    | true, Ok ds => ds
    | true, Err _ => devices (audioState s)
    | false, _ => []
    end.
Proof. destruct tf; [destruct res|]; repeat split. Qed.

(* ------------------------------------------------------------------ *)
(** ** Block list *)

Lemma insert_by_order_sorted (b : Block) (l : list Block) :
  Sorted order_le l -> Sorted order_le (insert_by_order b l).
Proof.
  induction l as [|x l IH]; simpl; intros Hs.
  - constructor; constructor.
  - destruct (Z.leb_spec (b_order b) (b_order x)) as [Hle|Hgt].
    + constructor; [exact Hs|constructor; exact Hle].
    + inversion Hs as [|? ? Hl Hhd]; subst.
      constructor; [exact (IH Hl)|].
      destruct l as [|y l]; simpl.
      * constructor. unfold order_le. lia.
      * destruct (Z.leb_spec (b_order b) (b_order y)).
        -- constructor. unfold order_le. lia.
        -- inversion Hhd; subst. constructor. assumption.
Qed.

Lemma insert_by_order_perm (b : Block) (l : list Block) :
  insert_by_order b l ≡ₚ b :: l.
Proof.
  induction l as [|x l IH]; simpl; [reflexivity|].
  destruct (b_order b <=? b_order x); [reflexivity|].
  rewrite IH. apply perm_swap.
Qed.

Lemma insert_by_order_filter (o : Z) (b : Block) (l : list Block) :
  List.filter (fun y => b_order y =? o) (insert_by_order b l) =
  (if b_order b =? o then b :: List.filter (fun y => b_order y =? o) l
   else List.filter (fun y => b_order y =? o) l).
Proof.
  induction l as [|x l IH]; simpl; [destruct (b_order b =? o); reflexivity|].
  destruct (Z.leb_spec (b_order b) (b_order x)) as [Hle|Hgt]; [reflexivity|].
  simpl. rewrite IH.
  destruct (Z.eqb_spec (b_order x) o), (Z.eqb_spec (b_order b) o); try reflexivity.
  lia.
Qed.

(** [sortedBlocks] holds the non-page blocks of the store in ascending
    [order], and blocks with equal [order] keep their store order. *)
Theorem sortedBlocks_stable_sort (s : AppState) :
  Sorted order_le (sortedBlocks s) /\
  sortedBlocks s ≡ₚ pageBlocks s /\
  (forall b, In b (sortedBlocks s) -> b_is_page b = false) /\
  (forall o, List.filter (fun b => b_order b =? o) (sortedBlocks s) =
             List.filter (fun b => b_order b =? o) (pageBlocks s)).
Proof.
  unfold sortedBlocks. assert (Hp : sort_by_order (pageBlocks s) ≡ₚ pageBlocks s).
  { induction (pageBlocks s) as [|b l IH]; simpl; [reflexivity|].
    rewrite insert_by_order_perm, IH. reflexivity. }
  split; [|split; [exact Hp|split]].
  - clear Hp. induction (pageBlocks s) as [|b l IH]; simpl; [constructor|].
    apply insert_by_order_sorted, IH.
  - intros b Hb. apply list_elem_of_In in Hb. rewrite Hp in Hb.
    apply list_elem_of_In in Hb. unfold pageBlocks in Hb.
    apply List.filter_In in Hb as [_ Hb]. now destruct (b_is_page b).
  - intros o. clear Hp. induction (pageBlocks s) as [|b l IH]; simpl; [reflexivity|].
    rewrite insert_by_order_filter, IH. reflexivity.
Qed.

(* ------------------------------------------------------------------ *)
(** ** Two quick Enters, two quick toggles *)

(** Two Enters before the first [create_block] answers send two create
    requests with the same [order], the number of non-page blocks shown. *)
Theorem enter_twice_same_order (w : World) (p : Block) (c1 c2 : string) :
  tauri w = true -> currentPage (app w) = Some p ->
  trim_nonempty c1 = true -> trim_nonempty c2 = true ->
  exists q1 q2 m1 m2,
    out (step (step w (EvEnter c1)) (EvEnter c2)) =
      out w ++ [OInvoke (CmdCreateBlock (next_req w) q1 m1);
                OInvoke (CmdCreateBlock (S (next_req w)) q2 m2)] /\
    req_order q1 = sorted_blocks_length (app w) /\
    req_order q2 = sorted_blocks_length (app w).
Proof.
  intros Ht Hp H1 H2. simpl. rewrite H1, Hp, Ht. simpl. rewrite H2, Hp, Ht. simpl.
  do 4 eexists. split; [rewrite <- app_assoc; reflexivity|split; reflexivity].
Qed.

Lemma enter_twice_same_order_witness :
  exists q1 q2 m1 m2,
    out (step (step (init true) (EvEnter "a")) (EvEnter "b")) =
      out (init true) ++ [OInvoke (CmdCreateBlock 0 q1 m1);
                          OInvoke (CmdCreateBlock 1 q2 m2)] /\
    req_order q1 = sorted_blocks_length (app (init true)) /\
    req_order q2 = sorted_blocks_length (app (init true)).
Proof.
  exact (enter_twice_same_order (init true) daily_page "a" "b"
           eq_refl eq_refl eq_refl eq_refl).
Defined.

(** Two clicks on the record button before [start_recording] answers issue
    two [start_recording] invokes. *)
Theorem toggle_twice_starts_twice (w : World) (p : Block) :
  tauri w = true -> currentPage (app w) = Some p ->
  isRecording (audioState (app w)) = false ->
  out (click_toggle (click_toggle w)) =
    out w ++ [OInvoke (CmdStartRecording (next_req w) (b_id p));
              OInvoke (CmdStartRecording (S (next_req w)) (b_id p))] /\
  pending (click_toggle (click_toggle w)) =
    pending w ++ [CmdStartRecording (next_req w) (b_id p);
                  CmdStartRecording (S (next_req w)) (b_id p)].
Proof.
  intros Ht Hp Hr. unfold click_toggle, handleToggleRecording.
  rewrite Hp, Hr. simpl. rewrite Ht. simpl. rewrite Hp, Hr. simpl. rewrite Ht. simpl.
  split; rewrite <- app_assoc; reflexivity.
Qed.

Lemma toggle_twice_starts_twice_witness :
  out (click_toggle (click_toggle (init true))) =
    [OInvoke (CmdStartRecording 0 "daily"); OInvoke (CmdStartRecording 1 "daily")] /\
  pending (click_toggle (click_toggle (init true))) =
    [CmdStartRecording 0 "daily"; CmdStartRecording 1 "daily"].
Proof. exact (toggle_twice_starts_twice (init true) daily_page eq_refl eq_refl eq_refl). Defined.

(* ------------------------------------------------------------------ *)
(** ** Saving an edited block *)

Lemma performSave_update (b : Block) (nc id x : string) :
  In (CallUpdate id x) (performSave b nc) ->
  id = b_id b /\ x = nc /\ trim_nonempty x = true /\ same_content x (b_content b) = false.
Proof.
  unfold performSave.
  destruct (trim_nonempty nc) eqn:Ht, (same_content nc (b_content b)) eqn:Hs;
    simpl; try tauto.
  intros [[= <- <-]|[]]. auto.
Qed.

Lemma flush_update (b : Block) (p : option string) (id x : string) :
  In (CallUpdate id x) (flush b p) ->
  id = b_id b /\ trim_nonempty x = true /\ same_content x (b_content b) = false.
Proof.
  destruct p as [nc|]; simpl; [|tauto].
  intros H. apply performSave_update in H as (? & _ & ? & ?). auto.
Qed.

(** Saving on [handleSave] or on blur never sends an update of another
    block, of blank content, or of the content the block already has. *)
Theorem save_sends_only_real_changes (b : Block) (p : option string) (c id x : string) :
  In (CallUpdate id x) (handleSave b p c ++ handleBlur b p c) ->
  id = b_id b /\ trim_nonempty x = true /\ same_content x (b_content b) = false.
Proof.
  unfold handleSave, handleBlur. rewrite !in_app_iff. intros [[H|H]|H].
  - exact (flush_update _ _ _ _ H).
  - destruct (trim_nonempty c) eqn:Ht; simpl in H.
    + destruct (same_content c (b_content b)) eqn:Hs; simpl in H; [tauto|].
      destruct H as [[= <- <-]|[]]. auto.
    + destruct H as [[=]|[]].
  - destruct (same_content c (b_content b)); simpl in H; [tauto|].
    exact (flush_update _ _ _ _ H).
Qed.

Lemma save_sends_only_real_changes_witness :
  In (CallUpdate "daily" "x") (handleSave daily_page (Some "x") "x" ++
                               handleBlur daily_page (Some "x") "x") /\
  "daily" = b_id daily_page /\ trim_nonempty "x" = true /\
  same_content "x" (b_content daily_page) = false.
Proof.
  assert (H : In (CallUpdate "daily" "x") (handleSave daily_page (Some "x") "x" ++
                                          handleBlur daily_page (Some "x") "x"))
    by (vm_compute; auto).
  split; [exact H|exact (save_sends_only_real_changes _ _ _ _ _ H)].
Defined.

(** [handleSave] of a blank text deletes the block and sends nothing else. *)
Theorem handleSave_blank_deletes (b : Block) (p : option string) (c : string) :
  trim_nonempty c = false -> p = None \/ p = Some c ->
  handleSave b p c = [CallDelete (b_id b)].
Proof.
  intros Hc Hp. unfold handleSave, flush, performSave.
  destruct Hp as [->| ->]; rewrite Hc; [reflexivity|].
  destruct (same_content c (b_content b)); reflexivity.
Qed.

Lemma handleSave_blank_deletes_witness :
  handleSave daily_page (Some "  ") "  " = [CallDelete "daily"].
Proof. exact (handleSave_blank_deletes daily_page (Some "  ") "  " eq_refl (or_intror eq_refl)). Defined.



(* ------------------------------------------------------------------ *)
(** ** Typing into the new-block textarea *)

Lemma trim_nonempty_app_l (a b : string) :
  trim_nonempty a = true -> trim_nonempty (a +:+ b) = true.
Proof.
  induction a as [|c a IH]; [discriminate|]. rewrite string_app_cons. simpl.
  destruct (is_ws c); simpl; [exact IH|reflexivity].
Qed.

Lemma type_keys_nonblank (s : AppState) (p : Block) (prev keys : string) :
  currentPage s = Some p -> trim_nonempty prev = true ->
  type_keys s prev keys =
  map (fun t => mkCreateBlockRequest (Some t) (Some (b_id p))
                  (Z.of_nat (length (sortedBlocks s))) false None)
      (typed_prefixes prev keys).
Proof.
  intros Hp. revert prev. induction keys as [|c rest IH]; intros prev Hprev; [reflexivity|].
  simpl. unfold newBlock_cleanup at 1. rewrite Hprev, Hp. f_equal.
  apply IH, trim_nonempty_app_l, Hprev.
Qed.

Lemma typed_prefixes_length (prev keys : string) :
  length (typed_prefixes prev keys) = String.length keys.
Proof.
  revert prev. induction keys as [|c rest IH]; intros prev; simpl; [reflexivity|].
  now rewrite IH.
Qed.

(** Typing a text that starts with a non-blank character into the new-block
    box of a page requests, at every keystroke after the first, a new block
    holding the text typed before that keystroke. *)
Theorem typing_creates_blocks (s : AppState) (p : Block) (c : ascii) (rest : string) :
  currentPage s = Some p -> is_ws c = false ->
  type_keys s EmptyString (String c rest) =
    map (fun t => mkCreateBlockRequest (Some t) (Some (b_id p))
                    (Z.of_nat (length (sortedBlocks s))) false None)
        (typed_prefixes (String c EmptyString) rest) /\
  length (type_keys s EmptyString (String c rest)) = String.length rest.
Proof.
  intros Hp Hc.
  assert (Hk : type_keys s EmptyString (String c rest) =
               map (fun t => mkCreateBlockRequest (Some t) (Some (b_id p))
                               (Z.of_nat (length (sortedBlocks s))) false None)
                   (typed_prefixes (String c EmptyString) rest)).
  { simpl. apply type_keys_nonblank; [exact Hp|]. simpl. now rewrite Hc. }
  split; [exact Hk|]. rewrite Hk, length_map. apply typed_prefixes_length.
Qed.

Lemma typing_creates_blocks_witness :
  type_keys (app (init true)) EmptyString "abc" =
    map (fun t => mkCreateBlockRequest (Some t) (Some "daily") 0 false None) ["a"; "ab"] /\
  length (type_keys (app (init true)) EmptyString "abc") = 2%nat.
Proof.
  exact (typing_creates_blocks (app (init true)) daily_page "a" "bc" eq_refl eq_refl).
Defined.
